(** * ai-blu-demo: ingestion pipeline and hybrid retrieval

    A shallow embedding of the Python sources
      - src/ingestion/chunking.py   (chunk_text, stage 1 of the staged pipeline)
      - src/ingestion/ingestion.py  (run_ingestion, stage 3)
      - src/ingestion/ingest.py     (RAGPipeline: ingest_data, ingest_from_s3)
      - src/ingest.py               (the earlier RAGPipeline)
      - src/ingestion/vector_probe.py (VectorProbe.hybrid_search)
    and the properties the specification states about them.

    Part I holds the definitions, Part II the lemmas and theorems. *)

From Stdlib Require Import ZArith NArith QArith List Bool Lia String Ascii.
Import ListNotations.
Open Scope Z_scope.

(* ================================================================= *)
(** * Part I.  Definitions *)
(* ================================================================= *)

(** ** Python strings

    A Python [str] is a sequence of Unicode code points.  Indices given to
    slices and to [rfind] are Python integers and may be negative or out of
    range; both operations adjust them the same way. *)

Module PyStr.

Definition char := N.
Definition str := list char.

Definition SPACE : char := 32%N.
Definition TAB : char := 9%N.
Definition NEWLINE : char := 10%N.

(** [len(s)] *)
Definition len (s : str) : Z := Z.of_nat (List.length s).

(** Code points for which [str.isspace] holds; these are the characters
    [str.strip()] removes. *)
Definition isspace (c : char) : bool :=
  ((9 <=? c) && (c <=? 13) || (28 <=? c) && (c <=? 32)
   || (c =? 133) || (c =? 160) || (c =? 5760)
   || (8192 <=? c) && (c <=? 8202)
   || (c =? 8232) || (c =? 8233) || (c =? 8239) || (c =? 8287)
   || (c =? 12288))%N.

(** Index adjustment of slicing: a negative index counts from the end,
    and the result is clamped to [0, len]. *)
Definition adjust (n i : Z) : Z :=
  if i <? 0 then Z.max 0 (i + n) else Z.min i n.

(** [s[a:b]] *)
Definition slice (s : str) (a b : Z) : str :=
  let lo := Z.to_nat (adjust (len s) a) in
  let hi := Z.to_nat (adjust (len s) b) in
  firstn (hi - lo) (skipn lo s).

(** Scan of the positions [lo + n - 1], ..., [lo] (in that order) for [c]. *)
Fixpoint rfind_down (c : char) (s : str) (lo n : nat) : Z :=
  match n with
  | O => -1
  | S k =>
      match nth_error s (lo + k) with
      | Some d => if (d =? c)%N then Z.of_nat (lo + k)
                  else rfind_down c s lo k
      | None => rfind_down c s lo k
      end
  end.

(** [s.rfind(c, a, b)] for a one-character needle: the highest index in
    [s[a:b]] holding [c], or -1. *)
Definition rfind (c : char) (s : str) (a b : Z) : Z :=
  let lo := Z.to_nat (adjust (len s) a) in
  let hi := Z.to_nat (adjust (len s) b) in
  rfind_down c s lo (hi - lo).

Fixpoint lstrip (s : str) : str :=
  match s with
  | [] => []
  | c :: t => if isspace c then lstrip t else s
  end.

Definition rstrip (s : str) : str := rev (lstrip (rev s)).

(** [s.strip()] *)
Definition strip (s : str) : str := rstrip (lstrip s).

(** Literals, for examples. *)
Definition of_string (s : string) : str :=
  map N_of_ascii (list_ascii_of_string s).

Definition repeat_char (c : char) (n : nat) : str := repeat c n.

End PyStr.

(** ** chunk_text  (src/ingestion/chunking.py, lines 11-25)

    [RAGPipeline.chunk_text] in src/ingest.py (lines 69-102) and in
    src/ingestion/ingest.py (lines 190-223) has the same body, statement by
    statement; only the default of [overlap] differs (100 instead of 150). *)

Module Chunking.
Import PyStr.

(** The loop state: [start] and the list [chunks]. *)
Definition state : Type := Z * list str.

(** Lines 17-20: the right edge of the window starting at [start]. *)
Definition window_end (text : str) (max_chars start : Z) : Z :=
  let end_ := start + max_chars in
  if end_ <? len text then
    let last_space := rfind SPACE text start end_ in
    if negb (last_space =? -1) then last_space else end_
  else end_.

(** Lines 17-24: one iteration of the [while] body. *)
Definition loop_body (text : str) (max_chars overlap : Z) (st : state)
  : state :=
  let '(start, chunks) := st in
  let end_ := window_end text max_chars start in
  let chunk := strip (slice text start end_) in
  let chunks := if 20 <? len chunk then chunks ++ [chunk] else chunks in
  let start := end_ - overlap in
  let start := if start >=? end_ then end_ + 1 else start in
  (start, chunks).

(** Line 16: the loop condition. *)
Definition loop_cond (text : str) (st : state) : bool :=
  fst st <? len text.

(** The state after at most [n] iterations of the loop. *)
Fixpoint loop_steps (n : nat) (text : str) (max_chars overlap : Z)
         (st : state) : state :=
  match n with
  | O => st
  | S k =>
      if loop_cond text st
      then loop_steps k text max_chars overlap
                      (loop_body text max_chars overlap st)
      else st
  end.

(** Lines 16-25: the loop, run with a bound on the number of iterations;
    [None] when the bound is reached before the loop exits. *)
Fixpoint while_loop (fuel : nat) (text : str) (max_chars overlap : Z)
         (st : state) : option (list str) :=
  if loop_cond text st then
    match fuel with
    | O => None
    | S k => while_loop k text max_chars overlap
                        (loop_body text max_chars overlap st)
    end
  else Some (snd st).

Definition chunk_text (fuel : nat) (text : str) (max_chars overlap : Z)
  : option (list str) :=
  if len text <=? max_chars then
    Some (if 20 <? len (strip text) then [strip text] else [])
  else while_loop fuel text max_chars overlap (0, []).

End Chunking.


(** ** Stored data and the world the pipelines act on *)

Module Store.
Import PyStr.

(** An embedding: [ndarray.tolist()], a list of numbers. *)
Definition vector := list Q.

(** Values held by the fields of a document.  File names are kept as
    [string], passage text as [str]; [VTime k] is the value returned by
    the [k]-th reading of [time.time()]; [VNum] is a score. *)
Inductive value : Type :=
| VStr (s : string)
| VInt (z : Z)
| VText (t : str)
| VVec (v : vector)
| VTime (k : nat)
| VNum (q : Q).

(** A chunk record is a Python dict literal: keys in insertion order. *)
Definition record := list (string * value).

Fixpoint lookup (k : string) (r : record) : option value :=
  match r with
  | [] => None
  | (k', v) :: t => if String.eqb k k' then Some v else lookup k t
  end.

Definition keys (r : record) : list string := map fst r.

(** A [*_enriched.json] file of the staging directory (written by
    stage 2, src/ingestion/embeddings.py): the keys [file_name],
    [chunks] and [embeddings]. *)
Record enriched := mkEnriched {
  ef_file_name : string;
  ef_chunks : list str;
  ef_embeddings : list vector
}.

(** The state the ingestion code reads and writes: the MongoDB
    collection (documents in insertion order), the staging directory and
    the number of readings of [time.time()] taken so far. *)
Record world := mkWorld {
  collection : list record;
  staging : list enriched;
  clock : nat
}.

Inductive exn : Type :=
| ConversionFailure
| EmbeddingFailure
| SourceFailure
| IndexError
| InvalidOperation.

Inductive result (A : Type) : Type :=
| Ok (a : A)
| Err (e : exn).
Arguments Ok {A} a.
Arguments Err {A} e.

(** The calls a run makes to its collaborators, in order. *)
Inductive event : Type :=
| EvDeleteMany
| EvInsertMany (payload : list record)
| EvConvert (path : string)
| EvEncode (texts : list str)
| EvEncodeStr (text : str)
| EvDownload (key : string).

(** The records handed to [insert_many] by a sequence of calls. *)
Definition inserted (evs : list event) : list record :=
  flat_map (fun ev => match ev with EvInsertMany p => p | _ => [] end) evs.

(** The external collaborators of a run.  [convert path] stands for
    [converter.convert(path)] followed by [export_to_markdown()];
    [encode] is [embed_model.encode] given a list of strings and
    [encode_str] the same method given one string, each followed by
    [tolist()].  [glob_pdf] are the names of the files matched by
    [Path(DATA_DIR).glob("*.pdf")]; [list_objects_v2] gives the keys of
    [response["Contents"]], or [None] when the response has no
    ["Contents"] entry. *)
Class External : Type := {
  glob_pdf : list string;
  s3_configured : bool;
  list_objects_v2 : result (option (list string));
  download_fileobj : string -> result unit;
  convert : string -> result str;
  encode : list str -> result (list vector);
  encode_str : str -> result vector
}.

End Store.

(** ** Effects: state, exceptions and the log of calls *)

Module Effects.
Import PyStr Store.

(** How a piece of code ends: normally, with an exception, or not at
    all within the iteration bound given to [chunk_text]. *)
Inductive outcome (A : Type) : Type :=
| Done (a : A)
| Raised (e : exn)
| Diverged.
Arguments Done {A} a.
Arguments Raised {A} e.
Arguments Diverged {A}.

Record run (A : Type) : Type := mkRun {
  result_of : outcome A;
  final : world;
  events : list event
}.
Arguments mkRun {A} _ _ _.
Arguments result_of {A} _.
Arguments final {A} _.
Arguments events {A} _.

Definition M (A : Type) : Type := world -> run A.

Definition ret {A} (a : A) : M A := fun w => mkRun (Done a) w [].

Definition raise {A} (e : exn) : M A := fun w => mkRun (Raised e) w [].

Definition bind {A B} (m : M A) (f : A -> M B) : M B :=
  fun w =>
    let r := m w in
    match result_of r with
    | Done a =>
        let r' := f a (final r) in
        mkRun (result_of r') (final r') (events r ++ events r')
    | Raised e => mkRun (Raised e) (final r) (events r)
    | Diverged => mkRun Diverged (final r) (events r)
    end.

Declare Scope pipe_scope.
Delimit Scope pipe_scope with pipe.
Notation "x <- m ;; k" := (bind m (fun x => k))
  (at level 61, m at next level, right associativity) : pipe_scope.
Notation "m ;; k" := (bind m (fun _ => k))
  (at level 61, right associativity) : pipe_scope.

Definition emit (ev : event) : M unit := fun w => mkRun (Done tt) w [ev].

Definition of_result {A} (r : result A) : M A :=
  match r with Ok a => ret a | Err e => raise e end.

(** A Python [for] loop over a list. *)
Fixpoint for_each {A} (f : A -> M unit) (l : list A) : M unit :=
  match l with
  | [] => ret tt
  | x :: t => bind (f x) (fun _ => for_each f t)
  end.

(** [collection.delete_many({})] *)
Definition delete_many : M unit :=
  fun w => mkRun (Done tt) (mkWorld [] (staging w) (clock w)) [EvDeleteMany].

(** [collection.insert_many(payload)]; pymongo rejects an empty list. *)
Definition insert_many (payload : list record) : M unit :=
  match payload with
  | [] => raise InvalidOperation
  | _ => fun w =>
      mkRun (Done tt)
            (mkWorld (collection w ++ payload) (staging w) (clock w))
            [EvInsertMany payload]
  end.

(** [time.time()] *)
Definition time_time : M nat :=
  fun w => mkRun (Done (clock w))
                 (mkWorld (collection w) (staging w) (S (clock w))) [].

(** [xs[i]] on a list, for [i >= 0]. *)
Definition index {A} (xs : list A) (i : nat) : M A :=
  match nth_error xs i with
  | Some x => ret x
  | None => raise IndexError
  end.

(** A call of [chunk_text], which may fail to return. *)
Definition chunk (fuel : nat) (text : str) (max_chars overlap : Z)
  : M (list str) :=
  match Chunking.chunk_text fuel text max_chars overlap with
  | Some cs => ret cs
  | None => fun w => mkRun Diverged w []
  end.

End Effects.

(** ** RAGPipeline  (src/ingestion/ingest.py) *)

Module Pipeline.
Import PyStr Store Effects.
Local Open Scope pipe_scope.
Local Open Scope string_scope.

(** [str.lower()] on the ASCII letters.  No other character lowers to
    one of [.], [p], [d], [f], so this decides the test of line 138 as
    Python does. *)
Definition lower_ascii (c : ascii) : ascii :=
  let n := nat_of_ascii c in
  if ((65 <=? n) && (n <=? 90))%nat then ascii_of_nat (n + 32) else c.

Fixpoint lower (s : string) : string :=
  match s with
  | EmptyString => EmptyString
  | String c t => String (lower_ascii c) (lower t)
  end.

(** [s.endswith(suffix)] *)
Definition endswith (s suffix : string) : bool :=
  let n := String.length s in
  let m := String.length suffix in
  ((m <=? n)%nat && String.eqb (substring (n - m) m s) suffix)%bool.

(** Line 138: the keys the S3 loop does not skip. *)
Definition is_pdf_key (key : string) : bool :=
  endswith (lower key) ".pdf".

(** [Path(key).name]: the part after the last [/]. *)
Fixpoint path_name_from (s acc : string) : string :=
  match s with
  | EmptyString => acc
  | String c t =>
      if Ascii.eqb c "/"%char then path_name_from t EmptyString
      else path_name_from t (acc ++ String c EmptyString)
  end.

Definition path_name (key : string) : string :=
  path_name_from key EmptyString.

Section WithCollaborators.
Context {ext : External}.

Definition converter_convert (path : string) : M str :=
  emit (EvConvert path) ;; of_result (convert path).

Definition embed_model_encode (texts : list str) : M (list vector) :=
  emit (EvEncode texts) ;; of_result (encode texts).

Definition s3_download (key : string) : M unit :=
  emit (EvDownload key) ;; of_result (download_fileobj key).

(** Lines 176-185: the list comprehension over [enumerate(chunks)],
    from position [i] on. *)
Fixpoint payload_with_time (original_name : string)
         (embeddings : list vector) (i : nat) (chunks : list str)
  : M (list record) :=
  match chunks with
  | [] => ret []
  | text :: rest =>
      e <- index embeddings i ;;
      t <- time_time ;;
      rs <- payload_with_time original_name embeddings (S i) rest ;;
      ret ([("file_name", VStr original_name);
            ("chunk_id", VInt (Z.of_nat i));
            ("text", VText text);
            ("embedding", VVec e);
            ("ingested_at", VTime t)] :: rs)
  end.

(** Lines 164-188. *)
Definition _process_and_store (fuel : nat) (file_path original_name : string)
  : M unit :=
  markdown_content <- converter_convert file_path ;;
  chunks <- chunk fuel markdown_content 800 100 ;;
  match chunks with
  | [] => ret tt
  | _ =>
      embeddings <- embed_model_encode chunks ;;
      payload <- payload_with_time original_name embeddings 0 chunks ;;
      insert_many payload
  end.

(** Lines 136-162: the body of the loop over [response["Contents"]].
    The temporary file the object is written to, read from by the
    converter and removed afterwards is not part of the model; the
    converter is asked for the path of that file. *)
Definition s3_object (fuel : nat) (key : string) : M unit :=
  if negb (is_pdf_key key) then ret tt
  else
    s3_download key ;;
    _process_and_store fuel ("temp_" ++ path_name key) key.

(** Lines 118-162. *)
Definition ingest_from_s3 (fuel : nat) : M unit :=
  if negb s3_configured then ret tt
  else
    response <- of_result list_objects_v2 ;;
    match response with
    | None => ret tt
    | Some contents =>
        delete_many ;;
        for_each (s3_object fuel) contents
    end.

(** Lines 243-251: the list comprehension of [ingest_data]. *)
Fixpoint payload_plain (name : string) (embeddings : list vector)
         (i : nat) (chunks : list str) : M (list record) :=
  match chunks with
  | [] => ret []
  | text :: rest =>
      e <- index embeddings i ;;
      rs <- payload_plain name embeddings (S i) rest ;;
      ret ([("file_name", VStr name);
            ("chunk_id", VInt (Z.of_nat i));
            ("text", VText text);
            ("embedding", VVec e)] :: rs)
  end.

(** Lines 232-257: the body of the loop over [pdf_files]. *)
Definition local_pdf (fuel : nat) (name : string) : M unit :=
  markdown_content <- converter_convert ("data/" ++ name) ;;
  chunks <- chunk fuel markdown_content 800 150 ;;
  match chunks with
  | [] => ret tt
  | _ =>
      embeddings <- embed_model_encode chunks ;;
      payload <- payload_plain name embeddings 0 chunks ;;
      insert_many payload
  end.

(** Lines 225-257. *)
Definition ingest_data (fuel : nat) : M unit :=
  match glob_pdf with
  | [] => ret tt
  | pdf_files =>
      delete_many ;;
      for_each (local_pdf fuel) pdf_files
  end.

End WithCollaborators.
End Pipeline.

(** ** The earlier RAGPipeline  (src/ingest.py) *)

Module Legacy.
Import PyStr Store Effects.
Local Open Scope pipe_scope.
Local Open Scope string_scope.

Section WithCollaborators.
Context {ext : External}.

Definition converter_convert (path : string) : M str :=
  emit (EvConvert path) ;; of_result (convert path).

Definition embed_model_encode (text : str) : M vector :=
  emit (EvEncodeStr text) ;; of_result (encode_str text).

(** Lines 121-130: the loop that fills [payload], from position [i]. *)
Fixpoint payload_loop (name : string) (i : nat) (chunks : list str)
  : M (list record) :=
  match chunks with
  | [] => ret []
  | text :: rest =>
      e <- embed_model_encode text ;;
      rs <- payload_loop name (S i) rest ;;
      ret ([("file_name", VStr name);
            ("chunk_id", VInt (Z.of_nat i));
            ("text", VText text);
            ("embedding", VVec e)] :: rs)
  end.

(** Lines 114-134: the body of the loop over [pdf_files]. *)
Definition local_pdf (fuel : nat) (name : string) : M unit :=
  markdown_content <- converter_convert ("data/" ++ name) ;;
  chunks <- chunk fuel markdown_content 800 150 ;;
  payload <- payload_loop name 0 chunks ;;
  match payload with
  | [] => ret tt
  | _ => insert_many payload
  end.

(** Lines 104-134. *)
Definition ingest_data (fuel : nat) : M unit :=
  match glob_pdf with
  | [] => ret tt
  | pdf_files =>
      delete_many ;;
      for_each (local_pdf fuel) pdf_files
  end.

End WithCollaborators.
End Legacy.

(** ** Stage 3 of the staged pipeline  (src/ingestion/ingestion.py) *)

Module Staged.
Import PyStr Store Effects.
Local Open Scope pipe_scope.
Local Open Scope string_scope.

(** Lines 25-34: the list comprehension over [enumerate(data["chunks"])]. *)
Fixpoint payload_of (data : enriched) (i : nat) (chunks : list str)
  : M (list record) :=
  match chunks with
  | [] => ret []
  | text :: rest =>
      e <- index (ef_embeddings data) i ;;
      t <- time_time ;;
      rs <- payload_of data (S i) rest ;;
      ret ([("file_name", VStr (ef_file_name data));
            ("chunk_id", VInt (Z.of_nat i));
            ("text", VText text);
            ("embedding", VVec e);
            ("ingested_at", VTime t)] :: rs)
  end.

(** Line 40: [e_file.unlink()] removes the file being processed, the
    first one still in the staging directory. *)
Definition unlink_first : M unit :=
  fun w => mkRun (Done tt)
                 (mkWorld (collection w) (tl (staging w)) (clock w)) [].

(** Lines 21-40: the body of the loop over [enriched_files]. *)
Definition enriched_file (data : enriched) : M unit :=
  payload <- payload_of data 0 (ef_chunks data) ;;
  (match payload with
   | [] => ret tt
   | _ => insert_many payload
   end) ;;
  unlink_first.

(** Lines 13-40. *)
Definition run_ingestion : M unit :=
  delete_many ;;
  fun w => for_each enriched_file (staging w) w.

End Staged.

(** ** VectorProbe.hybrid_search  (src/ingestion/vector_probe.py) *)

Module Probe.
Import PyStr Store.
Local Open Scope string_scope.

(** The right-hand sides of a [$project] stage: [0], [1] and
    [{"$meta": name}]. *)
Inductive projection : Type :=
| Exclude
| Include
| Meta (name : string).

(** The aggregation stages the request is made of.  The weights are the
    decimal numerals of the source. *)
#[warnings="-register-all"]
Inductive stage : Type :=
| VectorSearch (index path : string) (queryVector : vector)
               (numCandidates limit : Z)
| Search (index : string) (query : str) (path : string)
| Limit (n : Z)
| RankFusion (pipelines : list (string * list stage))
             (weights : list (string * Q))
| Project (spec : list (string * projection)).

Definition vector_path (query_vector : vector) (limit : Z) : list stage :=
  [VectorSearch "vector_index" "embedding" query_vector 50 limit].

Definition keyword_path (query_text : str) (limit : Z) : list stage :=
  [Search "keyword_index" query_text "text"; Limit limit].

Definition projected : list (string * projection) :=
  [("_id", Exclude); ("file_name", Include); ("text", Include);
   ("score", Meta "searchScore")].

(** Lines 24-73: the request. *)
Definition pipeline (query_vector : vector) (query_text : str) (limit : Z)
  : list stage :=
  [RankFusion
     [("vector_path", vector_path query_vector limit);
      ("keyword_path", keyword_path query_text limit)]
     [("vector_path", 6 # 10); ("keyword_path", 4 # 10)];
   Project projected].

(** A document as it travels through the stages: its fields and the
    metadata ([$meta]) the stages attach to it. *)
Record hit := mkHit {
  doc : record;
  meta : list (string * Q)
}.

(** The document store as the query path sees it: the three operators
    whose answers are the store's own. *)
Class SearchStore : Type := {
  vector_search : string -> string -> vector -> Z -> Z -> list hit;
  text_search : string -> str -> string -> list hit;
  rank_fusion : list (string * list hit) -> list (string * Q) -> list hit
}.

Fixpoint lookup_meta (k : string) (m : list (string * Q)) : option Q :=
  match m with
  | [] => None
  | (k', q) :: t => if String.eqb k k' then Some q else lookup_meta k t
  end.

(** [$project]: the listed fields the document has, and the listed
    metadata the stages before have set. *)
Fixpoint project (spec : list (string * projection)) (h : hit) : record :=
  match spec with
  | [] => []
  | (field, Exclude) :: t => project t h
  | (field, Include) :: t =>
      match lookup field (doc h) with
      | Some v => (field, v) :: project t h
      | None => project t h
      end
  | (field, Meta name) :: t =>
      match lookup_meta name (meta h) with
      | Some q => (field, VNum q) :: project t h
      | None => project t h
      end
  end.

Section WithStore.
Context {ext : External} {store : SearchStore}.

(** One stage applied to the documents that reach it. *)
Fixpoint run_stage (s : stage) (input : list hit) {struct s} : list hit :=
  match s with
  | VectorSearch i p q n l => vector_search i p q n l
  | Search i q p => text_search i q p
  | Limit n => firstn (Z.to_nat n) input
  | RankFusion pipelines weights =>
      rank_fusion
        ((fix arms (ps : list (string * list stage))
            : list (string * list hit) :=
            match ps with
            | [] => []
            | (name, p) :: t =>
                (name,
                 (fix stages (p : list stage) (acc : list hit)
                    : list hit :=
                    match p with
                    | [] => acc
                    | s' :: p' => stages p' (run_stage s' acc)
                    end) p [])
                :: arms t
            end) pipelines)
        weights
  | Project spec => map (fun h => mkHit (project spec h) (meta h)) input
  end.

(** [list(collection.aggregate(pipeline))] *)
Definition aggregate (p : list stage) : list record :=
  map doc (fold_left (fun acc s => run_stage s acc) p []).

(** Lines 18-88.  The printing of the results is left out. *)
Definition hybrid_search (query_text : str) (limit : Z)
  : result (list record) :=
  match encode_str query_text with
  | Err e => Err e
  | Ok query_vector =>
      Ok (aggregate (pipeline query_vector query_text limit))
  end.

End WithStore.

(** What the query path relies on from the store: [$vectorSearch] returns
    at most [limit] documents, and the fused list holds each document of
    the arms at most once, hence no more than the arms together. *)
Class SearchStoreLaws (store : SearchStore) : Prop := {
  vector_search_limit :
    forall i p q n l,
      (List.length (vector_search i p q n l) <= Z.to_nat l)%nat;
  rank_fusion_length :
    forall arms weights,
      (List.length (rank_fusion arms weights)
       <= List.length (List.concat (map snd arms)))%nat
}.

End Probe.


(** ** Predicates used in the statements, and concrete inputs *)

Module Inputs.
Import PyStr Chunking Store Effects.
Local Open Scope string_scope.

(** What [lstrip] returns starts with a character that is not white
    space, if it starts at all. *)
Definition clean_head (s : str) : Prop :=
  match s with
  | [] => True
  | c :: _ => isspace c = false
  end.

(** What is asked of an emitted chunk. *)
Definition good_chunk (max_chars : Z) (c : str) : Prop :=
  len c <= max_chars /\ 20 < len (strip c).

(** A text of 1000 characters: a hundred words of nine letters, each
    followed by a SPACE. *)
Definition thousand : str :=
  List.concat (repeat (of_string "abcdefghi ") 100).

(** A text whose first window has its only SPACE at position 150. *)
Definition stalling : str :=
  (repeat_char 97%N 150 ++ [SPACE] ++ repeat_char 97%N 1000)%list.

(** The world in which the collection holds the records [rs]. *)
Definition world_with (rs : list record) : world := mkWorld rs [] 0.

(** The world after [delete_many]. *)
Definition cleared (w : world) : world :=
  mkWorld [] (staging w) (clock w).

(** The calls to the embedding model among the calls of a run. *)
Definition encode_calls (evs : list event) : list event :=
  filter (fun ev => match ev with
                    | EvEncode _ | EvEncodeStr _ => true
                    | _ => false
                    end) evs.

(** A code that only ever adds to the collection what it hands to
    [insert_many]. *)
Definition appends {A} (m : M A) : Prop :=
  forall w, collection (final (m w))
            = (collection w ++ inserted (events (m w)))%list.

(** A code that makes no call to the embedding model. *)
Definition no_encode {A} (m : M A) : Prop :=
  forall w, encode_calls (events (m w)) = [].

(** The record lines 177-183 build for the chunk [text] at position [i],
    given its embedding [e], when the clock is read for the [t]-th time. *)
Definition chunk_record (name : string) (i : nat) (text : str) (e : vector)
           (t : nat) : record :=
  [("file_name", VStr name); ("chunk_id", VInt (Z.of_nat i));
   ("text", VText text); ("embedding", VVec e); ("ingested_at", VTime t)].

(** Collaborators for the examples: the local directory holds the files
    [names], the bucket lists [listing], the converter fails on the path
    [bad] and gives the text [thousand] for any other, and the model maps
    every text to the same vector. *)
Definition demo (names : list string) (listing : option (list string))
           (bad : string) : External :=
  {| glob_pdf := names;
     s3_configured := true;
     list_objects_v2 := Ok listing;
     download_fileobj := fun _ => Ok tt;
     convert := fun path =>
       if String.eqb path bad then Err ConversionFailure else Ok thousand;
     encode := fun texts => Ok (map (fun _ => [1 # 2; 1 # 4]%Q) texts);
     encode_str := fun _ => Ok [1 # 2; 1 # 4]%Q |}.

(** A record left in the collection by something earlier. *)
Definition old_record : record :=
  [("file_name", VStr "old.pdf"); ("chunk_id", VInt 0)].

(** A store of two passages for the examples of the query path.  The
    vector arm ranks [a.pdf] first, the keyword arm [b.pdf]; the fused list
    is the arms put together, a document kept once. *)
Definition passage (name : string) (text : string) : record :=
  [("_id", VStr name); ("file_name", VStr name); ("chunk_id", VInt 0);
   ("text", VText (of_string text)); ("embedding", VVec [1 # 2; 1 # 4]%Q)].

Definition hit_name (h : Probe.hit) : string :=
  match lookup "file_name" (Probe.doc h) with
  | Some (VStr s) => s
  | _ => ""
  end.

Fixpoint union_hits (seen : list string) (hs : list Probe.hit)
  : list Probe.hit :=
  match hs with
  | [] => []
  | h :: t =>
      if existsb (String.eqb (hit_name h)) seen then union_hits seen t
      else h :: union_hits (hit_name h :: seen) t
  end.

Definition tiny_store : Probe.SearchStore :=
  {| Probe.vector_search := fun _ _ _ _ l =>
       firstn (Z.to_nat l)
              [Probe.mkHit (passage "a.pdf" "alpha") [("vectorSearchScore", 9 # 10)%Q];
               Probe.mkHit (passage "b.pdf" "beta") [("vectorSearchScore", 8 # 10)%Q]];
     Probe.text_search := fun _ _ _ =>
       [Probe.mkHit (passage "b.pdf" "beta") [("searchScore", 2 # 1)%Q];
        Probe.mkHit (passage "a.pdf" "alpha") [("searchScore", 1 # 1)%Q]];
     Probe.rank_fusion := fun arms _ =>
       union_hits [] (List.concat (map snd arms)) |}.

End Inputs.

(** ** Further predicates and expected values *)

Module Specs.
Import PyStr Chunking Store Effects.
Local Open Scope string_scope.

(** [c] is a run of consecutive characters of [text]. *)
Definition piece_of (text c : str) : Prop :=
  exists before after, text = (before ++ c ++ after)%list.

(** What is true of every chunk, whatever the configuration: it is a
    piece of the text and [strip] leaves it as it is. *)
Definition trimmed_piece (text c : str) : Prop :=
  piece_of text c /\ strip c = c.

(** The records of lines 176-185 of src/ingestion/ingest.py (and 25-34 of
    src/ingestion/ingestion.py) for chunks paired with their embeddings:
    positions count from [i], clock readings from [t]. *)
Fixpoint stamped (name : string) (i t : nat) (pairs : list (str * vector))
  : list record :=
  match pairs with
  | [] => []
  | (text, e) :: rest =>
      [("file_name", VStr name); ("chunk_id", VInt (Z.of_nat i));
       ("text", VText text); ("embedding", VVec e);
       ("ingested_at", VTime t)]
      :: stamped name (S i) (S t) rest
  end.

(** The records without [ingested_at] (lines 243-251 of
    src/ingestion/ingest.py, lines 123-130 of src/ingest.py). *)
Fixpoint plain (name : string) (i : nat) (pairs : list (str * vector))
  : list record :=
  match pairs with
  | [] => []
  | (text, e) :: rest =>
      [("file_name", VStr name); ("chunk_id", VInt (Z.of_nat i));
       ("text", VText text); ("embedding", VVec e)]
      :: plain name (S i) rest
  end.

(** A record without its [ingested_at] field. *)
Definition untimed (r : record) : record :=
  filter (fun kv => negb (String.eqb (fst kv) "ingested_at")) r.

(** An enriched file that holds a vector for each of its chunks. *)
Definition well_formed (data : enriched) : Prop :=
  (List.length (ef_chunks data) <= List.length (ef_embeddings data))%nat.

(** The records an enriched file stands for, [ingested_at] left out. *)
Definition plain_of (data : enriched) : list record :=
  plain (ef_file_name data) 0
        (combine (ef_chunks data) (ef_embeddings data)).

(** Every call a code makes satisfies [Q]. *)
Definition all_events {A} (Q : event -> Prop) (m : M A) : Prop :=
  forall w, Forall Q (events (m w)).

Definition not_insert (ev : event) : Prop :=
  match ev with
  | EvInsertMany _ => False
  | _ => True
  end.

(** A code that leaves the collection as it is. *)
Definition keeps_collection {A} (m : M A) : Prop :=
  forall w, collection (final (m w)) = collection w.

(** A code that changes the collection only when it ends normally. *)
Definition all_or_nothing (m : M unit) : Prop :=
  forall w, result_of (m w) <> Done tt ->
            collection (final (m w)) = collection w.

(** A key of the listing that the loop of [ingest_from_s3] does not
    skip. *)
Definition listed_pdf {ext : External} (key : string) : Prop :=
  Pipeline.is_pdf_key key = true /\
  exists contents,
    list_objects_v2 = Ok (Some contents) /\ In key contents.

(** The calls [ingest_from_s3] may make. *)
Definition s3_event {ext : External} (ev : event) : Prop :=
  match ev with
  | EvDownload key => listed_pdf key
  | EvConvert path =>
      exists key, listed_pdf key /\
                  path = "temp_" ++ Pipeline.path_name key
  | EvEncodeStr _ => False
  | _ => True
  end.

End Specs.

(* ================================================================= *)
(** * Part II.  Properties *)
(* ================================================================= *)

(** ** Facts about the string operations *)

Section StrFacts.
Import PyStr Inputs.

Lemma len_nonneg (s : str) : 0 <= len s.
Proof. unfold len. lia. Qed.

Lemma adjust_range (n i : Z) : 0 <= n -> 0 <= adjust n i <= n.
Proof. unfold adjust. destruct (i <? 0) eqn:E; lia. Qed.

Lemma adjust_inside (n i : Z) : 0 <= i <= n -> adjust n i = i.
Proof. unfold adjust. destruct (i <? 0) eqn:E; lia. Qed.

(** A window of width [m >= 0] never selects more than [m] positions,
    wherever it starts, once the text is longer than [m]. *)
Lemma adjust_window (n start m : Z) :
  0 <= m -> m < n ->
  adjust n (start + m) - adjust n start <= m.
Proof.
  unfold adjust.
  destruct (start + m <? 0) eqn:E1; destruct (start <? 0) eqn:E2; lia.
Qed.

Lemma slice_length (s : str) (a b : Z) :
  len (slice s a b) = Z.max 0 (adjust (len s) b - adjust (len s) a).
Proof.
  unfold slice, len.
  pose proof (adjust_range (Z.of_nat (List.length s)) a ltac:(lia)) as Ha.
  pose proof (adjust_range (Z.of_nat (List.length s)) b ltac:(lia)) as Hb.
  rewrite length_firstn, length_skipn. lia.
Qed.

Lemma lstrip_clean (s : str) : clean_head (lstrip s).
Proof.
  induction s as [|c t IH]; simpl; [exact I|].
  destruct (isspace c) eqn:E; [exact IH | exact E].
Qed.

Lemma lstrip_fixed (s : str) : clean_head s -> lstrip s = s.
Proof.
  destruct s as [|c t]; simpl; [reflexivity|].
  intros ->. reflexivity.
Qed.

Lemma lstrip_suffix (s : str) : exists p, s = p ++ lstrip s.
Proof.
  induction s as [|c t [p Hp]]; simpl.
  - exists []. reflexivity.
  - destruct (isspace c).
    + exists (c :: p). simpl. f_equal. exact Hp.
    + exists []. reflexivity.
Qed.

Lemma rstrip_prefix (s : str) : exists q, s = rstrip s ++ q.
Proof.
  unfold rstrip. destruct (lstrip_suffix (rev s)) as [p Hp].
  exists (rev p). rewrite <- rev_app_distr, <- Hp, rev_involutive.
  reflexivity.
Qed.

Lemma rstrip_clean (s : str) : clean_head s -> clean_head (rstrip s).
Proof.
  destruct (rstrip_prefix s) as [q Hq]. intros H.
  destruct (rstrip s) as [|c t] eqn:E; [exact I|].
  rewrite Hq in H. exact H.
Qed.

Lemma rstrip_idem (s : str) : rstrip (rstrip s) = rstrip s.
Proof.
  unfold rstrip. rewrite rev_involutive.
  rewrite (lstrip_fixed _ (lstrip_clean _)). reflexivity.
Qed.

Lemma strip_idem (s : str) : strip (strip s) = strip s.
Proof.
  unfold strip.
  rewrite (lstrip_fixed (rstrip (lstrip s))).
  - apply rstrip_idem.
  - apply rstrip_clean, lstrip_clean.
Qed.

Lemma lstrip_length (s : str) : (List.length (lstrip s) <= List.length s)%nat.
Proof.
  destruct (lstrip_suffix s) as [p Hp].
  rewrite Hp at 2. rewrite length_app. lia.
Qed.

Lemma strip_length (s : str) : len (strip s) <= len s.
Proof.
  unfold strip, rstrip, len. rewrite length_rev.
  pose proof (lstrip_length (rev (lstrip s))) as H1.
  rewrite length_rev in H1.
  pose proof (lstrip_length s). lia.
Qed.

(** [rfind_down] answers -1 or a position of the scanned range. *)
Lemma rfind_down_range (c : char) (s : str) (lo n : nat) :
  rfind_down c s lo n = -1 \/
  Z.of_nat lo <= rfind_down c s lo n < Z.of_nat (lo + n).
Proof.
  induction n as [|k IH]; simpl; [left; reflexivity|].
  destruct (nth_error s (lo + k)) as [d|].
  - destruct (d =? c)%N.
    + right. lia.
    + destruct IH as [IH|IH]; [left; exact IH | right; lia].
  - destruct IH as [IH|IH]; [left; exact IH | right; lia].
Qed.

(** -1 is the answer exactly when no scanned position holds [c]. *)
Lemma rfind_down_none (c : char) (s : str) (lo n : nat) :
  rfind_down c s lo n = -1 <->
  (forall j, (lo <= j < lo + n)%nat -> nth_error s j <> Some c).
Proof.
  induction n as [|k IH]; simpl.
  - split; [intros _ j Hj; lia | reflexivity].
  - destruct (nth_error s (lo + k)) as [d|] eqn:E.
    + destruct (N.eqb_spec d c) as [->|Hne].
      * split; [lia|]. intros H. exfalso. apply (H (lo + k)%nat); [lia|exact E].
      * rewrite IH. split; intros H j Hj.
        -- destruct (Nat.eq_dec j (lo + k)) as [->|Hj'].
           ++ rewrite E. congruence.
           ++ apply H. lia.
        -- apply H. lia.
    + rewrite IH. split; intros H j Hj.
      * destruct (Nat.eq_dec j (lo + k)) as [->|Hj'].
        -- rewrite E. discriminate.
        -- apply H. lia.
      * apply H. lia.
Qed.

(** Otherwise the answer is the highest scanned position holding [c]. *)
Lemma rfind_down_last (c : char) (s : str) (lo n p : nat) :
  (lo <= p < lo + n)%nat ->
  nth_error s p = Some c ->
  (forall j, (p < j < lo + n)%nat -> nth_error s j <> Some c) ->
  rfind_down c s lo n = Z.of_nat p.
Proof.
  induction n as [|k IH]; intros Hp Hc Hmax; [lia|]. simpl.
  destruct (Nat.eq_dec p (lo + k)) as [->|Hne].
  - rewrite Hc, N.eqb_refl. reflexivity.
  - destruct (nth_error s (lo + k)) as [d|] eqn:E.
    + destruct (N.eqb_spec d c) as [->|Hd].
      * exfalso. apply (Hmax (lo + k)%nat); [lia|exact E].
      * apply IH; [lia|exact Hc|]. intros j Hj. apply Hmax. lia.
    + apply IH; [lia|exact Hc|]. intros j Hj. apply Hmax. lia.
Qed.

End StrFacts.

(** ** The chunker *)

Section ChunkingFacts.
Import PyStr Chunking Inputs.

(** The right edge is the hard cut, or a position of the text inside the
    (adjusted) window. *)
Lemma window_end_cases (text : str) (max_chars start : Z) :
  window_end text max_chars start = start + max_chars \/
  (start + max_chars < len text /\
   adjust (len text) start <= window_end text max_chars start
     < adjust (len text) (start + max_chars)).
Proof.
  unfold window_end.
  destruct (start + max_chars <? len text) eqn:E; [|left; reflexivity].
  destruct (rfind SPACE text start (start + max_chars) =? -1) eqn:F; simpl;
    [left; reflexivity|].
  right. split; [lia|].
  pose proof (adjust_range (len text) start (len_nonneg text)) as Ha.
  pose proof (adjust_range (len text) (start + max_chars) (len_nonneg text)) as Hb.
  unfold rfind in *.
  destruct (rfind_down_range SPACE text
              (Z.to_nat (adjust (len text) start))
              (Z.to_nat (adjust (len text) (start + max_chars))
               - Z.to_nat (adjust (len text) start))) as [H|H]; lia.
Qed.

Lemma window_slice_length (text : str) (max_chars start : Z) :
  0 <= max_chars -> max_chars < len text ->
  len (slice text start (window_end text max_chars start)) <= max_chars.
Proof.
  intros Hm Hlen. rewrite slice_length.
  pose proof (adjust_window (len text) start max_chars Hm Hlen) as Hw.
  destruct (window_end_cases text max_chars start) as [->|[_ H]]; [lia|].
  pose proof (adjust_range (len text) (start + max_chars) (len_nonneg text)).
  pose proof (adjust_range (len text) start (len_nonneg text)).
  rewrite (adjust_inside (len text) (window_end text max_chars start)); lia.
Qed.

Lemma loop_body_chunks (text : str) (max_chars overlap : Z) (st : state) :
  0 <= max_chars -> max_chars < len text ->
  Forall (good_chunk max_chars) (snd st) ->
  Forall (good_chunk max_chars) (snd (loop_body text max_chars overlap st)).
Proof.
  intros Hm Hlen Hst. destruct st as [start chunks]. unfold loop_body.
  set (e := window_end text max_chars start).
  destruct (e - overlap >=? e); simpl;
    (destruct (20 <? len (strip (slice text start e))) eqn:E; [|exact Hst];
     apply Forall_app; split; [exact Hst|];
     constructor; [|constructor];
     split;
     [ pose proof (strip_length (slice text start e));
       pose proof (window_slice_length text max_chars start Hm Hlen);
       fold e in H0; lia
     | rewrite strip_idem; lia ]).
Qed.

Lemma loop_steps_chunks (text : str) (max_chars overlap : Z) :
  0 <= max_chars -> max_chars < len text ->
  forall n st,
    Forall (good_chunk max_chars) (snd st) ->
    Forall (good_chunk max_chars) (snd (loop_steps n text max_chars overlap st)).
Proof.
  intros Hm Hlen. induction n as [|k IH]; intros st Hst; simpl; [exact Hst|].
  destruct (loop_cond text st); [|exact Hst].
  apply IH, loop_body_chunks; assumption.
Qed.

Lemma while_loop_chunks (text : str) (max_chars overlap : Z) :
  0 <= max_chars -> max_chars < len text ->
  forall fuel st chunks,
    Forall (good_chunk max_chars) (snd st) ->
    while_loop fuel text max_chars overlap st = Some chunks ->
    Forall (good_chunk max_chars) chunks.
Proof.
  intros Hm Hlen. induction fuel as [|k IH]; intros st chunks Hst; simpl;
    destruct (loop_cond text st); try discriminate;
    try (intros [= <-]; exact Hst).
  apply IH, loop_body_chunks; assumption.
Qed.

(** The new [start] after one iteration: with a positive overlap the guard
    of line 24 is never taken. *)
Lemma loop_body_start (text : str) (max_chars overlap start : Z)
      (chunks : list str) :
  0 < overlap ->
  fst (loop_body text max_chars overlap (start, chunks))
  = window_end text max_chars start - overlap.
Proof.
  intros Ho. unfold loop_body.
  set (e := window_end text max_chars start).
  destruct (e - overlap >=? e) eqn:E; simpl; [lia|reflexivity].
Qed.

(** With [overlap >= max_chars] and [overlap > 0] the loop condition,
    once true, stays true. *)
Lemma loop_cond_stays (text : str) (max_chars overlap : Z) (st : state) :
  0 < overlap -> max_chars <= overlap ->
  loop_cond text st = true ->
  loop_cond text (loop_body text max_chars overlap st) = true.
Proof.
  intros Ho Hm. destruct st as [start chunks]. unfold loop_cond.
  rewrite loop_body_start by exact Ho. cbn [fst]. intros H.
  pose proof (adjust_range (len text) (start + max_chars) (len_nonneg text)).
  destruct (window_end_cases text max_chars start) as [->|[_ Hw]]; lia.
Qed.

Lemma while_loop_no_exit (text : str) (max_chars overlap : Z) :
  0 < overlap -> max_chars <= overlap ->
  forall fuel st,
    loop_cond text st = true ->
    while_loop fuel text max_chars overlap st = None.
Proof.
  intros Ho Hm. induction fuel as [|k IH]; intros st Hst; simpl; rewrite Hst;
    [reflexivity|].
  apply IH, loop_cond_stays; assumption.
Qed.

(** On every text longer than [max_chars], a configuration with
    [overlap >= max_chars] and [overlap > 0] never leaves the loop. *)
Lemma chunk_text_no_exit (text : str) (max_chars overlap : Z) (fuel : nat) :
  0 < overlap -> max_chars <= overlap ->
  max_chars < len text -> 0 < len text ->
  chunk_text fuel text max_chars overlap = None.
Proof.
  intros Ho Hm Hlen Hpos. unfold chunk_text.
  destruct (len text <=? max_chars) eqn:E; [lia|].
  apply while_loop_no_exit; try assumption.
  unfold loop_cond. simpl. lia.
Qed.

(** C1 (code defect).  The guard of lines 23-24 tests the new [start]
    against [end], not against the previous [start]; with a positive
    overlap it never fires.  On the ten-character text [aaaaaaaaaa] with
    [max_chars = 5] and [overlap = 5] the loop is never left, whatever
    number of iterations is allowed. *)
Theorem chunk_text_degenerate_overlap_diverges :
  forall fuel : nat, chunk_text fuel (repeat_char 97%N 10) 5 5 = None.
Proof.
  intros fuel. apply chunk_text_no_exit; try lia;
    unfold len, repeat_char; rewrite repeat_length; lia.
Qed.

(** C3.  A text no longer than [max_chars] gives no chunk when its
    trimmed length is at most 20, and otherwise exactly one chunk, the
    trimmed text; the answer does not depend on the iteration bound. *)
Theorem chunk_text_short (fuel : nat) (text : str) (max_chars overlap : Z) :
  len text <= max_chars ->
  (len (strip text) <= 20 ->
   chunk_text fuel text max_chars overlap = Some []) /\
  (20 < len (strip text) ->
   chunk_text fuel text max_chars overlap = Some [strip text]).
Proof.
  intros Hlen. unfold chunk_text.
  destruct (len text <=? max_chars) eqn:E; [|lia].
  split; intros H; destruct (20 <? len (strip text)) eqn:F; try reflexivity; lia.
Qed.

Lemma chunk_text_short_witness :
  chunk_text 0 (of_string "  a short passage, long enough to keep  ") 800 150
  = Some [of_string "a short passage, long enough to keep"].
Proof.
  apply (proj2 (chunk_text_short 0
                  (of_string "  a short passage, long enough to keep  ")
                  800 150 ltac:(vm_compute; discriminate)));
    vm_compute; reflexivity.
Defined.

(** C4.  For a text longer than [max_chars] (a character count,
    [max_chars >= 0]), every chunk the loop has emitted after any number
    of iterations, and every chunk of a returned result, is at most
    [max_chars] long and keeps more than 20 characters when trimmed. *)
Theorem chunk_text_chunks_bounded (text : str) (max_chars overlap : Z) :
  0 <= max_chars -> max_chars < len text ->
  (forall n,
      Forall (good_chunk max_chars)
             (snd (loop_steps n text max_chars overlap (0, [])))) /\
  (forall fuel chunks,
      chunk_text fuel text max_chars overlap = Some chunks ->
      Forall (good_chunk max_chars) chunks).
Proof.
  intros Hm Hlen. split.
  - intros n. apply loop_steps_chunks; try assumption. constructor.
  - intros fuel chunks. unfold chunk_text.
    destruct (len text <=? max_chars) eqn:E; [lia|].
    apply while_loop_chunks; try assumption. constructor.
Qed.

Lemma chunk_text_chunks_bounded_witness :
  Forall (good_chunk 30)
         [of_string "the quick brown fox jumps";
          of_string "jumps over the lazy dog and"].
Proof.
  apply (proj2 (chunk_text_chunks_bounded
                  (of_string "the quick brown fox jumps over the lazy dog and runs away")
                  30 5 ltac:(lia) ltac:(vm_compute; reflexivity)) 10%nat).
  vm_compute. reflexivity.
Defined.

(** C5, as the code has it.  For a window that starts inside the text
    ([start >= 0]) and whose right edge falls strictly before the end of
    the text, the edge moves to the last SPACE character (U+0020) of the
    window, and the hard cut at [start + max_chars] is kept when the window
    holds no SPACE; other white space (tab, newline) is not looked for. *)
Theorem window_end_last_space (text : str) (max_chars start : Z) :
  0 <= start -> 0 <= max_chars -> start + max_chars < len text ->
  ((forall i, start <= i < start + max_chars ->
              nth_error text (Z.to_nat i) <> Some SPACE) ->
   window_end text max_chars start = start + max_chars) /\
  (forall p, start <= p < start + max_chars ->
             nth_error text (Z.to_nat p) = Some SPACE ->
             (forall j, p < j < start + max_chars ->
                        nth_error text (Z.to_nat j) <> Some SPACE) ->
             window_end text max_chars start = p).
Proof.
  intros Hs Hm Hlen. unfold window_end, rfind.
  destruct (start + max_chars <? len text) eqn:E; [|lia].
  rewrite !adjust_inside by lia.
  split.
  - intros Hno.
    assert (rfind_down SPACE text (Z.to_nat start)
              (Z.to_nat (start + max_chars) - Z.to_nat start) = -1) as ->.
    { apply rfind_down_none. intros j Hj.
      specialize (Hno (Z.of_nat j) ltac:(lia)).
      rewrite Nat2Z.id in Hno. exact Hno. }
    reflexivity.
  - intros p Hp Hsp Hlast.
    rewrite (rfind_down_last SPACE text _ _ (Z.to_nat p)).
    + rewrite Z2Nat.id by lia.
      destruct (p =? -1) eqn:F; [lia|reflexivity].
    + lia.
    + exact Hsp.
    + intros j Hj. specialize (Hlast (Z.of_nat j) ltac:(lia)).
      rewrite Nat2Z.id in Hlast. exact Hlast.
Qed.

Lemma window_end_last_space_witness :
  window_end
    (of_string "the quick brown fox jumps over the lazy dog and runs away")
    30 0 = 25.
Proof.
  apply (proj2 (window_end_last_space
                  (of_string "the quick brown fox jumps over the lazy dog and runs away")
                  30 0 ltac:(lia) ltac:(lia) ltac:(vm_compute; reflexivity))
               25 ltac:(lia) ltac:(vm_compute; reflexivity)).
  intros j Hj.
  assert (j = 26 \/ j = 27 \/ j = 28 \/ j = 29) as [ -> | [ -> | [ -> | -> ] ] ] by lia;
    vm_compute; discriminate.
Defined.

(** C5 as stated fails: a window holding white space other than SPACE
    keeps the hard cut.  In [abcd\nefghijklmn] with [max_chars = 8] the
    first window holds a newline at position 4, its right edge 8 falls
    before the end of the text (15), and the edge stays at 8. *)
Lemma window_end_ignores_newline :
  let text := of_string "abcd" ++ [NEWLINE] ++ of_string "efghijklmn" in
  0 + 8 < len text /\
  nth_error text 4 = Some NEWLINE /\
  isspace NEWLINE = true /\
  window_end text 8 0 = 0 + 8.
Proof. vm_compute. repeat split; reflexivity. Qed.

(** The scenario of the specification: a text of 1000 characters with
    [max_chars = 800] and [overlap = 150] gives two chunks. *)
Example chunk_text_thousand :
  len thousand = 1000 /\
  option_map (map len) (chunk_text 5 thousand 800 150) = Some [799; 349].
Proof. vm_compute. split; reflexivity. Qed.

(** The loop can also stall with the configuration the pipelines use
    (800, 150): when the last SPACE of the first window is at position 150
    the next window starts at 0 again. *)
Lemma stalling_step (chunks : list str) :
  fst (loop_body stalling 800 150 (0, chunks)) = 0.
Proof.
  rewrite loop_body_start by lia.
  replace (window_end stalling 800 0) with 150; [reflexivity|].
  vm_compute. reflexivity.
Qed.

Lemma chunk_text_stalls_with_defaults :
  forall fuel : nat, chunk_text fuel stalling 800 150 = None.
Proof.
  intros fuel. unfold chunk_text.
  replace (len stalling <=? 800) with false by (vm_compute; reflexivity).
  generalize (@nil str).
  induction fuel as [|k IH]; intros chunks; simpl;
    replace (loop_cond stalling (0, chunks)) with true
      by (vm_compute; reflexivity);
    [reflexivity|].
  pose proof (stalling_step chunks) as H.
  destruct (loop_body stalling 800 150 (0, chunks)) as [s cs].
  simpl in H. subst s. apply IH.
Qed.

End ChunkingFacts.

(** ** Runs: sequencing, loops and exceptions *)

Section EffectFacts.
Import PyStr Store Effects Inputs.

Lemma bind_done {A B} (m : M A) (f : A -> M B) (w : world) (a : A) :
  result_of (m w) = Done a ->
  bind m f w = mkRun (result_of (f a (final (m w))))
                     (final (f a (final (m w))))
                     (events (m w) ++ events (f a (final (m w)))).
Proof. intros H. unfold bind. rewrite H. reflexivity. Qed.

Lemma bind_raised {A B} (m : M A) (f : A -> M B) (w : world) (e : exn) :
  result_of (m w) = Raised e ->
  bind m f w = mkRun (Raised e) (final (m w)) (events (m w)).
Proof. intros H. unfold bind. rewrite H. reflexivity. Qed.

Lemma run_eta {A} (r : run A) :
  r = mkRun (result_of r) (final r) (events r).
Proof. destruct r. reflexivity. Qed.

(** An exception raised by the body for one element ends the loop: the
    elements after it contribute nothing. *)
Lemma for_each_raises {A} (f : A -> M unit) (pre post : list A) (d : A)
      (e : exn) (w : world) :
  result_of (for_each f pre w) = Done tt ->
  result_of (f d (final (for_each f pre w))) = Raised e ->
  for_each f (pre ++ d :: post) w
  = mkRun (Raised e)
          (final (f d (final (for_each f pre w))))
          (events (for_each f pre w)
           ++ events (f d (final (for_each f pre w)))).
Proof.
  revert w. induction pre as [|x pre IH]; intros w Hpre Hd; simpl in *.
  - rewrite (bind_raised _ _ _ e Hd). reflexivity.
  - unfold bind in *.
    destruct (result_of (f x w)) as [[]| |] eqn:E; simpl in *;
      try discriminate.
    rewrite (IH (final (f x w)) Hpre Hd). simpl.
    rewrite app_assoc. reflexivity.
Qed.

(** A loop whose body does nothing for every element does nothing. *)
Lemma for_each_skip {A} (f : A -> M unit) (l : list A) (w : world) :
  (forall x, In x l -> f x = ret tt) ->
  for_each f l w = mkRun (Done tt) w [].
Proof.
  induction l as [|x l IH]; intros H; simpl; [reflexivity|].
  rewrite (H x (or_introl eq_refl)). unfold bind. simpl.
  rewrite IH; [reflexivity|]. intros y Hy. apply H. right. exact Hy.
Qed.

Lemma inserted_app (a b : list event) :
  inserted (a ++ b) = inserted a ++ inserted b.
Proof. unfold inserted. apply flat_map_app. Qed.

(** [appends] is kept by sequencing and holds of every primitive but
    [delete_many]. *)
Lemma appends_bind {A B} (m : M A) (f : A -> M B) :
  appends m -> (forall a, appends (f a)) -> appends (bind m f).
Proof.
  intros Hm Hf w. unfold bind.
  destruct (result_of (m w)) as [a| |] eqn:E; simpl; try apply Hm.
  rewrite (Hf a), Hm, inserted_app, app_assoc. reflexivity.
Qed.

Lemma appends_ret {A} (a : A) : appends (ret a).
Proof. intros w. simpl. rewrite app_nil_r. reflexivity. Qed.

Lemma appends_raise {A} (e : exn) : appends (@raise A e).
Proof. intros w. simpl. rewrite app_nil_r. reflexivity. Qed.

Lemma appends_of_result {A} (r : result A) : appends (of_result r).
Proof. destruct r; [apply appends_ret | apply appends_raise]. Qed.

Lemma appends_index {A} (xs : list A) (i : nat) : appends (index xs i).
Proof.
  unfold index. destruct (nth_error xs i);
    [apply appends_ret | apply appends_raise].
Qed.

Lemma appends_time : appends time_time.
Proof. intros w. simpl. rewrite app_nil_r. reflexivity. Qed.

Lemma appends_chunk (fuel : nat) (text : str) (m o : Z) :
  appends (chunk fuel text m o).
Proof.
  unfold chunk. destruct (Chunking.chunk_text fuel text m o).
  - apply appends_ret.
  - intros w. simpl. rewrite app_nil_r. reflexivity.
Qed.

Lemma appends_insert_many (payload : list record) :
  appends (insert_many payload).
Proof.
  destruct payload as [|r rs]; [apply appends_raise|].
  intros w. simpl. rewrite app_nil_r. reflexivity.
Qed.

Lemma appends_emit (ev : event) :
  (forall p, ev <> EvInsertMany p) -> appends (emit ev).
Proof.
  intros H w. simpl. destruct ev; simpl; try (rewrite app_nil_r; reflexivity).
  exfalso. apply (H payload). reflexivity.
Qed.

Lemma appends_for_each {A} (f : A -> M unit) (l : list A) :
  (forall x, appends (f x)) -> appends (for_each f l).
Proof.
  intros H. induction l as [|x l IH]; simpl.
  - apply appends_ret.
  - apply appends_bind; [apply H | intros _; exact IH].
Qed.

(** After [delete_many], a code that only appends leaves in the collection
    what it has inserted itself. *)
Lemma delete_then_appends (m : M unit) (w : world) :
  appends m ->
  collection (final (bind delete_many (fun _ => m) w))
  = inserted (events (bind delete_many (fun _ => m) w)).
Proof.
  intros H. unfold bind. simpl. rewrite H. reflexivity.
Qed.

End EffectFacts.

(** ** The ingestion runs *)

Section IngestFacts.
Import PyStr Store Effects Inputs.
Local Open Scope string_scope.

Ltac appends_step :=
  first
    [ apply appends_ret | apply appends_raise | apply appends_of_result
    | apply appends_index | apply appends_time | apply appends_chunk
    | apply appends_insert_many
    | apply appends_emit; intros p; discriminate
    | apply appends_bind; [|intros ?] ].

Lemma payload_with_time_appends `{External} name embeddings chunks :
  forall i, appends (Pipeline.payload_with_time name embeddings i chunks).
Proof.
  induction chunks as [|c cs IH]; intros i; simpl; [apply appends_ret|].
  repeat appends_step. apply IH.
Qed.

Lemma payload_plain_appends `{External} name embeddings chunks :
  forall i, appends (Pipeline.payload_plain name embeddings i chunks).
Proof.
  induction chunks as [|c cs IH]; intros i; simpl; [apply appends_ret|].
  repeat appends_step. apply IH.
Qed.

Lemma process_and_store_appends `{External} fuel path name :
  appends (Pipeline._process_and_store fuel path name).
Proof.
  unfold Pipeline._process_and_store, Pipeline.converter_convert,
    Pipeline.embed_model_encode.
  repeat appends_step.
  destruct a0; repeat appends_step. apply payload_with_time_appends.
Qed.

Lemma s3_object_appends `{External} fuel key :
  appends (Pipeline.s3_object fuel key).
Proof.
  unfold Pipeline.s3_object.
  destruct (negb (Pipeline.is_pdf_key key)); [apply appends_ret|].
  apply appends_bind.
  - unfold Pipeline.s3_download. repeat appends_step.
  - intros _. apply process_and_store_appends.
Qed.

Lemma local_pdf_appends `{External} fuel name :
  appends (Pipeline.local_pdf fuel name).
Proof.
  unfold Pipeline.local_pdf, Pipeline.converter_convert,
    Pipeline.embed_model_encode.
  repeat appends_step.
  destruct a0; repeat appends_step. apply payload_plain_appends.
Qed.

Lemma payload_of_appends data chunks :
  forall i, appends (Staged.payload_of data i chunks).
Proof.
  induction chunks as [|c cs IH]; intros i; simpl; [apply appends_ret|].
  repeat appends_step. apply IH.
Qed.

Lemma enriched_file_appends data : appends (Staged.enriched_file data).
Proof.
  unfold Staged.enriched_file.
  apply appends_bind; [apply payload_of_appends|]. intros payload.
  apply appends_bind.
  - destruct payload; repeat appends_step.
  - intros _ w. simpl. rewrite app_nil_r. reflexivity.
Qed.

(** A run of [ingest_data] that finds at least one file leaves in the
    collection exactly what it has inserted itself, however it ends. *)
Lemma ingest_data_replaces `{External} (fuel : nat) (w : world) :
  glob_pdf <> [] ->
  collection (final (Pipeline.ingest_data fuel w))
  = inserted (events (Pipeline.ingest_data fuel w)).
Proof.
  intros Hne. unfold Pipeline.ingest_data.
  destruct glob_pdf as [|d ds] eqn:E; [congruence|].
  apply delete_then_appends, appends_for_each.
  intros x. apply local_pdf_appends.
Qed.

(** [run_ingestion] does so in every case. *)
Lemma run_ingestion_replaces (w : world) :
  collection (final (Staged.run_ingestion w))
  = inserted (events (Staged.run_ingestion w)).
Proof.
  unfold Staged.run_ingestion.
  unfold bind. simpl.
  rewrite (appends_for_each Staged.enriched_file (staging w)
             enriched_file_appends). reflexivity.
Qed.

(** A run of [ingest_data] that finds no file changes nothing. *)
Lemma ingest_data_no_files `{External} (fuel : nat) (w : world) :
  glob_pdf = [] ->
  Pipeline.ingest_data fuel w = mkRun (Done tt) w [].
Proof. intros E. unfold Pipeline.ingest_data. rewrite E. reflexivity. Qed.

(** C7, as the code has it.  Running [ingest_data] a second time over the
    same, non-empty set of files replaces: the run deletes every record
    before it inserts, and the collection then holds as many records as
    the second run inserted.  [run_ingestion] deletes without condition,
    so the same holds of it for any staging directory. *)
Theorem reingest_replaces `{External} (fuel : nat) (w : world) :
  glob_pdf <> [] ->
  (let first := Pipeline.ingest_data fuel w in
   let second := Pipeline.ingest_data fuel (final first) in
   List.length (collection (final second))
   = List.length (inserted (events second))) /\
  (let first := Staged.run_ingestion w in
   let second := Staged.run_ingestion (final first) in
   List.length (collection (final second))
   = List.length (inserted (events second))).
Proof.
  intros Hne. split; cbv zeta.
  - rewrite ingest_data_replaces by exact Hne. reflexivity.
  - rewrite run_ingestion_replaces. reflexivity.
Qed.

Lemma reingest_replaces_witness :
  let ext := demo ["a.pdf"] None "" in
  let first := Pipeline.ingest_data 5 (world_with [old_record]) in
  let second := Pipeline.ingest_data 5 (final first) in
  List.length (collection (final second))
  = List.length (inserted (events second)).
Proof.
  exact (proj1 (@reingest_replaces (demo ["a.pdf"] None "") 5
                  (world_with [old_record])
                  ltac:(simpl; discriminate))).
Defined.

(** C7 as stated fails for a run that finds no file: line 227 returns
    before the delete of line 230.  With an empty [data] directory and one
    record in the collection, two runs insert nothing and the record is
    still there. *)
Lemma reingest_empty_source_keeps_records :
  let ext := demo [] None "" in
  let first := Pipeline.ingest_data 5 (world_with [old_record]) in
  let second := Pipeline.ingest_data 5 (final first) in
  List.length (collection (final second)) = 1%nat /\
  List.length (inserted (events second)) = 0%nat /\
  ~ In EvDeleteMany (events second).
Proof. vm_compute. repeat split. intros []. Qed.

Example reingest_counts :
  let ext := demo ["a.pdf"] None "" in
  let first := Pipeline.ingest_data 5 (world_with [old_record]) in
  let second := Pipeline.ingest_data 5 (final first) in
  (List.length (collection (final first)),
   List.length (collection (final second))) = (2%nat, 2%nat).
Proof. vm_compute. reflexivity. Qed.

Lemma delete_then (m : M unit) (w : world) :
  bind delete_many (fun _ => m) w
  = mkRun (result_of (m (cleared w))) (final (m (cleared w)))
          (EvDeleteMany :: events (m (cleared w))).
Proof. reflexivity. Qed.

(** With S3 configured and a listing, [ingest_from_s3] is the delete
    followed by the loop over the listed keys. *)
Lemma ingest_from_s3_listed `{External} fuel w contents :
  s3_configured = true ->
  list_objects_v2 = Ok (Some contents) ->
  Pipeline.ingest_from_s3 fuel w
  = bind delete_many
         (fun _ => for_each (Pipeline.s3_object fuel) contents) w.
Proof.
  intros Hcfg Hlist. unfold Pipeline.ingest_from_s3.
  rewrite Hcfg, Hlist. cbn [negb of_result].
  unfold bind at 1. cbn [ret result_of final events app].
  symmetry. apply run_eta.
Qed.

(** How the processing of one file comes to raise. *)
Lemma local_pdf_conversion_error `{External} fuel name e w :
  convert ("data/" ++ name) = Err e ->
  Pipeline.local_pdf fuel name w
  = mkRun (Raised e) w [EvConvert ("data/" ++ name)].
Proof.
  intros E. unfold Pipeline.local_pdf, Pipeline.converter_convert, bind.
  rewrite E. reflexivity.
Qed.

Lemma local_pdf_embedding_error `{External} fuel name text c cs e w :
  convert ("data/" ++ name) = Ok text ->
  Chunking.chunk_text fuel text 800 150 = Some (c :: cs) ->
  encode (c :: cs) = Err e ->
  Pipeline.local_pdf fuel name w
  = mkRun (Raised e) w [EvConvert ("data/" ++ name); EvEncode (c :: cs)].
Proof.
  intros E1 E2 E3.
  unfold Pipeline.local_pdf, Pipeline.converter_convert,
    Pipeline.embed_model_encode, chunk, bind.
  rewrite E1. cbn [of_result ret emit result_of final events].
  rewrite E2. cbn [of_result ret emit result_of final events].
  rewrite E3. reflexivity.
Qed.

(** C2, as the code has it.  No loop over the documents catches
    exceptions.  When the processing of a document raises, after the
    documents before it were processed normally, the run ends there with
    that exception: its calls are those made for the documents up to the
    failing one, none is made for the documents after it, and nothing is
    reported at the end.  This holds of [ingest_data] and of
    [ingest_from_s3]. *)
Theorem ingest_failure_aborts_run `{External} (fuel : nat) (w : world)
        (pre post : list string) (d : string) (e : exn) :
  (glob_pdf = (pre ++ d :: post)%list ->
   let before := for_each (Pipeline.local_pdf fuel) pre (cleared w) in
   let failing := Pipeline.local_pdf fuel d (final before) in
   result_of before = Done tt ->
   result_of failing = Raised e ->
   Pipeline.ingest_data fuel w
   = mkRun (Raised e) (final failing)
           (EvDeleteMany :: events before ++ events failing)%list) /\
  (s3_configured = true ->
   list_objects_v2 = Ok (Some (pre ++ d :: post)%list) ->
   let before := for_each (Pipeline.s3_object fuel) pre (cleared w) in
   let failing := Pipeline.s3_object fuel d (final before) in
   result_of before = Done tt ->
   result_of failing = Raised e ->
   Pipeline.ingest_from_s3 fuel w
   = mkRun (Raised e) (final failing)
           (EvDeleteMany :: events before ++ events failing)%list).
Proof.
  split.
  - intros Hglob before failing Hb Hf. unfold Pipeline.ingest_data.
    rewrite Hglob.
    destruct (pre ++ d :: post)%list as [|x l] eqn:E;
      [destruct pre; discriminate|].
    rewrite <- E, delete_then.
    rewrite (for_each_raises _ pre post d e (cleared w) Hb Hf).
    reflexivity.
  - intros Hcfg Hlist before failing Hb Hf.
    rewrite (ingest_from_s3_listed fuel w _ Hcfg Hlist).
    rewrite delete_then.
    rewrite (for_each_raises _ pre post d e (cleared w) Hb Hf).
    reflexivity.
Qed.

Lemma ingest_failure_aborts_run_witness :
  let ext := demo ["a.pdf"; "b.pdf"; "c.pdf"] None "data/b.pdf" in
  let w := world_with [old_record] in
  let before := for_each (Pipeline.local_pdf 5) ["a.pdf"] (cleared w) in
  let failing := Pipeline.local_pdf 5 "b.pdf" (final before) in
  Pipeline.ingest_data 5 w
  = mkRun (Raised ConversionFailure) (final failing)
          (EvDeleteMany :: events before ++ events failing)%list.
Proof.
  exact (proj1 (@ingest_failure_aborts_run
                  (demo ["a.pdf"; "b.pdf"; "c.pdf"] None "data/b.pdf")
                  5 (world_with [old_record])
                  ["a.pdf"] ["c.pdf"] "b.pdf" ConversionFailure)
               eq_refl
               ltac:(vm_compute; reflexivity)
               ltac:(vm_compute; reflexivity)).
Defined.

(** C2 as stated fails.  With the files [a.pdf] and [b.pdf], where the
    conversion of [a.pdf] raises and [b.pdf] converts well, the run ends
    with the exception of [a.pdf]: the converter is never called for
    [b.pdf] and nothing of it is stored. *)
Lemma ingest_data_stops_at_first_failure :
  let ext := demo ["a.pdf"; "b.pdf"] None "data/a.pdf" in
  let r := Pipeline.ingest_data 5 (world_with []) in
  convert "data/b.pdf" = Ok thousand /\
  result_of r = Raised ConversionFailure /\
  events r = [EvDeleteMany; EvConvert "data/a.pdf"] /\
  collection (final r) = [].
Proof. vm_compute. repeat split. Qed.

(** C10.  With S3 configured: when the response has no ["Contents"]
    entry (the listing is empty) the run returns before any call, the
    collection as it was; when it lists keys none of which ends in [.pdf]
    (in any letter case, line 138) the run deletes every record and
    inserts none, so the collection is left empty. *)
Theorem ingest_from_s3_listing `{External} (fuel : nat) (w : world) :
  s3_configured = true ->
  (list_objects_v2 = Ok None ->
   Pipeline.ingest_from_s3 fuel w = mkRun (Done tt) w []) /\
  (forall contents,
      list_objects_v2 = Ok (Some contents) ->
      (forall key, In key contents -> Pipeline.is_pdf_key key = false) ->
      let r := Pipeline.ingest_from_s3 fuel w in
      result_of r = Done tt /\
      collection (final r) = [] /\
      events r = [EvDeleteMany]).
Proof.
  intros Hcfg. split.
  - intros Hlist. unfold Pipeline.ingest_from_s3.
    rewrite Hcfg, Hlist. reflexivity.
  - intros contents Hlist Hkeys. cbv zeta.
    rewrite (ingest_from_s3_listed fuel w contents Hcfg Hlist).
    rewrite delete_then, for_each_skip.
    + repeat split.
    + intros key Hkey. unfold Pipeline.s3_object.
      rewrite (Hkeys key Hkey). reflexivity.
Qed.

Lemma ingest_from_s3_listing_witness :
  let ext := demo [] (Some ["readme.txt"; "notes/plan.md"]) "" in
  let r := Pipeline.ingest_from_s3 5 (world_with [old_record]) in
  result_of r = Done tt /\
  collection (final r) = [] /\
  events r = [EvDeleteMany].
Proof.
  apply (proj2 (@ingest_from_s3_listing
                  (demo [] (Some ["readme.txt"; "notes/plan.md"]) "")
                  5 (world_with [old_record]) eq_refl)
               ["readme.txt"; "notes/plan.md"] eq_refl).
  intros key [<-|[<-|[]]]; vm_compute; reflexivity.
Defined.

Example ingest_from_s3_empty_listing :
  let ext := demo [] None "" in
  Pipeline.ingest_from_s3 5 (world_with [old_record])
  = mkRun (Done tt) (world_with [old_record]) [].
Proof. reflexivity. Qed.

Example is_pdf_key_upper : Pipeline.is_pdf_key "docs/REPORT.PDF" = true.
Proof. reflexivity. Qed.

(** *** Calls to the embedding model *)

Lemma encode_calls_app (a b : list event) :
  encode_calls (a ++ b) = (encode_calls a ++ encode_calls b)%list.
Proof. unfold encode_calls. apply filter_app. Qed.

Lemma no_encode_bind {A B} (m : M A) (f : A -> M B) :
  no_encode m -> (forall a, no_encode (f a)) -> no_encode (bind m f).
Proof.
  intros Hm Hf w. unfold bind.
  destruct (result_of (m w)) as [a| |] eqn:E; simpl; try apply Hm.
  rewrite encode_calls_app, Hm, Hf. reflexivity.
Qed.

Lemma no_encode_index {A} (xs : list A) (i : nat) : no_encode (index xs i).
Proof. intros w. unfold index. destruct (nth_error xs i); reflexivity. Qed.

Lemma no_encode_insert_many (payload : list record) :
  no_encode (insert_many payload).
Proof. intros w. destruct payload; reflexivity. Qed.

Lemma payload_plain_no_encode `{External} name embeddings chunks :
  forall i, no_encode (Pipeline.payload_plain name embeddings i chunks).
Proof.
  induction chunks as [|c cs IH]; intros i; simpl; [intros w; reflexivity|].
  apply no_encode_bind; [apply no_encode_index|]. intros e.
  apply no_encode_bind; [apply IH|]. intros rs w. reflexivity.
Qed.

Lemma payload_with_time_no_encode `{External} name embeddings chunks :
  forall i, no_encode (Pipeline.payload_with_time name embeddings i chunks).
Proof.
  induction chunks as [|c cs IH]; intros i; simpl; [intros w; reflexivity|].
  apply no_encode_bind; [apply no_encode_index|]. intros e.
  apply no_encode_bind; [intros w; reflexivity|]. intros t.
  apply no_encode_bind; [apply IH|]. intros rs w. reflexivity.
Qed.

(** In src/ingestion/ingest.py a document with a non-empty chunk sequence
    is embedded by one call, given all its chunks: in [ingest_data] ... *)
Lemma local_pdf_one_batch `{External} fuel name text chunks w :
  convert ("data/" ++ name) = Ok text ->
  Chunking.chunk_text fuel text 800 150 = Some chunks ->
  chunks <> [] ->
  encode_calls (events (Pipeline.local_pdf fuel name w)) = [EvEncode chunks].
Proof.
  intros E1 E2 Hne. destruct chunks as [|c cs]; [congruence|].
  unfold Pipeline.local_pdf, Pipeline.converter_convert,
    Pipeline.embed_model_encode, chunk.
  unfold bind at 1 2. rewrite E1.
  cbn [of_result ret emit result_of final events app].
  unfold bind at 1. rewrite E2.
  cbn [of_result ret emit result_of final events app].
  unfold bind at 1 2.
  cbn [of_result ret emit result_of final events app].
  destruct (encode (c :: cs)) as [embeddings|e];
    cbn [of_result ret raise emit result_of final events app];
    [|reflexivity].
  cbn [encode_calls filter]. f_equal.
  apply (no_encode_bind
           (Pipeline.payload_plain name embeddings 0 (c :: cs))
           insert_many
           (payload_plain_no_encode name embeddings (c :: cs) 0)
           no_encode_insert_many).
Qed.

(** ... and in [_process_and_store]. *)
Lemma process_and_store_one_batch `{External} fuel path name text chunks w :
  convert path = Ok text ->
  Chunking.chunk_text fuel text 800 100 = Some chunks ->
  chunks <> [] ->
  encode_calls (events (Pipeline._process_and_store fuel path name w))
  = [EvEncode chunks].
Proof.
  intros E1 E2 Hne. destruct chunks as [|c cs]; [congruence|].
  unfold Pipeline._process_and_store, Pipeline.converter_convert,
    Pipeline.embed_model_encode, chunk.
  unfold bind at 1 2. rewrite E1.
  cbn [of_result ret emit result_of final events app].
  unfold bind at 1. rewrite E2.
  cbn [of_result ret emit result_of final events app].
  unfold bind at 1 2.
  cbn [of_result ret emit result_of final events app].
  destruct (encode (c :: cs)) as [embeddings|e];
    cbn [of_result ret raise emit result_of final events app];
    [|reflexivity].
  cbn [encode_calls filter]. f_equal.
  apply (no_encode_bind
           (Pipeline.payload_with_time name embeddings 0 (c :: cs))
           insert_many
           (payload_with_time_no_encode name embeddings (c :: cs) 0)
           no_encode_insert_many).
Qed.

(** In src/ingest.py the payload loop calls the model once for every
    chunk, as long as the calls succeed. *)
Lemma legacy_payload_loop_calls `{External} name chunks :
  (forall c, In c chunks -> exists v, encode_str c = Ok v) ->
  forall i w,
    encode_calls (events (Legacy.payload_loop name i chunks w))
    = map EvEncodeStr chunks.
Proof.
  induction chunks as [|c cs IH]; intros Hok i w; [reflexivity|].
  destruct (Hok c (or_introl eq_refl)) as [v Hv].
  cbn [Legacy.payload_loop]. unfold Legacy.embed_model_encode.
  unfold bind at 1 2. rewrite Hv.
  cbn [of_result ret emit result_of final events app].
  unfold bind at 1.
  assert (Hcs : forall c', In c' cs -> exists v', encode_str c' = Ok v')
    by (intros c' Hc'; apply Hok; right; exact Hc').
  specialize (IH Hcs (S i) w).
  unfold encode_calls in *.
  destruct (result_of (Legacy.payload_loop name (S i) cs w)) as [rs| |];
    cbn [ret result_of final events app filter map];
    rewrite ?app_nil_r, IH; reflexivity.
Qed.

(** C6 (code defect in src/ingest.py).  [ingest_data] of src/ingest.py
    calls the embedding model inside the loop over the chunks (line 128):
    for the file whose text is [thousand], which gives two chunks, the
    model is called twice, each time with one chunk, and never with the
    list of chunks. *)
Theorem legacy_ingest_encodes_per_chunk :
  let ext := demo ["a.pdf"] None "" in
  let chunks :=
    match Chunking.chunk_text 5 thousand 800 150 with
    | Some cs => cs
    | None => []
    end in
  List.length chunks = 2%nat /\
  encode_calls (events (Legacy.ingest_data 5 (world_with [])))
  = map EvEncodeStr chunks.
Proof. vm_compute. split; reflexivity. Qed.

(** *** The records *)

(** The payload [_process_and_store] assembles: one record per chunk, in
    the order of the chunks, each with the five fields; the record at
    position [k] has [chunk_id = k], the text of chunk [k] and the
    embedding at position [k]. *)
Lemma payload_with_time_records `{External} name embeddings chunks :
  forall i w payload,
    result_of (Pipeline.payload_with_time name embeddings i chunks w)
    = Done payload ->
    List.length payload = List.length chunks /\
    forall k text,
      nth_error chunks k = Some text ->
      exists e,
        nth_error embeddings (i + k) = Some e /\
        nth_error payload k
        = Some (chunk_record name (i + k) text e (clock w + k)).
Proof.
  induction chunks as [|c cs IH]; intros i w payload; simpl.
  - intros [= <-]. split; [reflexivity|].
    intros k text Hk. destruct k; discriminate.
  - unfold bind at 1. unfold index.
    destruct (nth_error embeddings i) as [e|] eqn:E;
      cbn [ret raise result_of final events]; [|discriminate].
    unfold bind at 1. cbn [time_time result_of final events].
    unfold bind at 1.
    destruct (result_of
                (Pipeline.payload_with_time name embeddings (S i) cs
                   (mkWorld (collection w) (staging w) (S (clock w)))))
      as [rs| |] eqn:R; cbn [ret result_of]; try discriminate.
    intros [= <-].
    destruct (IH _ _ _ R) as [Hlen Hrec]. split; [simpl; congruence|].
    intros [|k] text Hk; simpl in Hk.
    + injection Hk as <-. exists e.
      rewrite !Nat.add_0_r. split; [exact E|reflexivity].
    + destruct (Hrec k text Hk) as [e' [He' Hp]]. exists e'.
      rewrite !Nat.add_succ_r. split; [exact He'|exact Hp].
Qed.

(** C8 (code defect in [ingest_data] of src/ingestion/ingest.py).  The
    records [ingest_data] assembles (lines 243-251) have the fields
    [file_name], [chunk_id], [text] and [embedding] only; [ingested_at],
    which [_process_and_store] and [run_ingestion] write, is missing.  For
    the file whose text is [thousand] the two records stored are numbered
    0 and 1 and neither has the field. *)
Theorem ingest_data_records_lack_ingested_at :
  let ext := demo ["a.pdf"] None "" in
  let stored := collection (final (Pipeline.ingest_data 5 (world_with []))) in
  map keys stored
  = [["file_name"; "chunk_id"; "text"; "embedding"];
     ["file_name"; "chunk_id"; "text"; "embedding"]] /\
  map (lookup "chunk_id") stored = [Some (VInt 0); Some (VInt 1)] /\
  map (lookup "ingested_at") stored = [None; None].
Proof. vm_compute. repeat split. Qed.

(** The S3 path writes the field. *)
Example ingest_from_s3_records :
  let ext := demo [] (Some ["docs/a.pdf"]) "" in
  let stored := collection (final (Pipeline.ingest_from_s3 5 (world_with []))) in
  map keys stored
  = [["file_name"; "chunk_id"; "text"; "embedding"; "ingested_at"];
     ["file_name"; "chunk_id"; "text"; "embedding"; "ingested_at"]] /\
  map (lookup "file_name") stored
  = [Some (VStr "docs/a.pdf"); Some (VStr "docs/a.pdf")] /\
  map (lookup "ingested_at") stored = [Some (VTime 0); Some (VTime 1)].
Proof. vm_compute. repeat split. Qed.

End IngestFacts.

(** ** The hybrid query *)

Section ProbeFacts.
Import PyStr Store Inputs Probe.
Local Open Scope string_scope.

Lemma project_keys (h : hit) :
  incl (keys (project projected h)) ["file_name"; "text"; "score"].
Proof.
  unfold projected. cbn [project].
  destruct (lookup "file_name" (doc h));
    destruct (lookup "text" (doc h));
    destruct (lookup_meta "searchScore" (meta h));
    intros x Hx; simpl in *; tauto.
Qed.

(** The request as the store evaluates it: the two arms, the fusion, the
    projection; no stage after the fusion truncates the list. *)
Lemma aggregate_pipeline `{External} `{SearchStore}
      (query_vector : vector) (query_text : str) (limit : Z) :
  aggregate (pipeline query_vector query_text limit)
  = map (project projected)
        (rank_fusion
           [("vector_path",
             vector_search "vector_index" "embedding" query_vector 50 limit);
            ("keyword_path",
             firstn (Z.to_nat limit)
                    (text_search "keyword_index" query_text "text"))]
           [("vector_path", (6 # 10)%Q); ("keyword_path", (4 # 10)%Q)]).
Proof.
  unfold aggregate, pipeline, vector_path, keyword_path.
  cbn [fold_left run_stage]. rewrite map_map. reflexivity.
Qed.

Lemma union_hits_length (hs : list hit) :
  forall seen, (List.length (union_hits seen hs) <= List.length hs)%nat.
Proof.
  induction hs as [|h t IH]; intros seen; simpl; [lia|].
  destruct (existsb (String.eqb (hit_name h)) seen); simpl.
  - specialize (IH seen). lia.
  - specialize (IH (hit_name h :: seen)). lia.
Qed.

Lemma tiny_store_laws : SearchStoreLaws tiny_store.
Proof.
  split.
  - intros i p q n l. cbn [vector_search tiny_store].
    rewrite length_firstn. lia.
  - intros arms weights. cbn [rank_fusion tiny_store].
    apply union_hits_length.
Qed.

(** C9, as the code has it.  When the query embeds, [hybrid_search]
    returns what the store's rank fusion makes of the vector arm and the
    keyword arm, each limited to [limit] documents, with the weights 0.6
    and 0.4, every document projected to at most [file_name], [text] and
    [score].  Nothing truncates the fused list, so it holds at most
    [2 * limit] results. *)
Theorem hybrid_search_result `{External} `{SearchStore}
        (laws : SearchStoreLaws _) (query_text : str) (limit : Z)
        (query_vector : vector) :
  0 <= limit ->
  encode_str query_text = Ok query_vector ->
  exists results,
    hybrid_search query_text limit = Ok results /\
    results
    = map (project projected)
          (rank_fusion
             [("vector_path",
               vector_search "vector_index" "embedding" query_vector 50 limit);
              ("keyword_path",
               firstn (Z.to_nat limit)
                      (text_search "keyword_index" query_text "text"))]
             [("vector_path", (6 # 10)%Q); ("keyword_path", (4 # 10)%Q)]) /\
    Z.of_nat (List.length results) <= 2 * limit /\
    Forall (fun r => incl (keys r) ["file_name"; "text"; "score"]) results.
Proof.
  intros Hlimit Henc. eexists. split; [|split; [reflexivity|split]].
  - unfold hybrid_search. rewrite Henc, aggregate_pipeline. reflexivity.
  - rewrite length_map.
    match goal with
    | |- context [rank_fusion ?arms ?ws] =>
        pose proof (rank_fusion_length arms ws) as Hf
    end.
    cbn [map snd List.concat] in Hf.
    rewrite !length_app, length_firstn in Hf. cbn [List.length] in Hf.
    pose proof (vector_search_limit "vector_index" "embedding"
                  query_vector 50 limit).
    lia.
  - apply Forall_forall. intros r Hr. apply in_map_iff in Hr.
    destruct Hr as [h [<- _]]. apply project_keys.
Qed.

Lemma hybrid_search_result_witness :
  let ext := demo [] None "" in
  let store := tiny_store in
  exists results,
    hybrid_search (of_string "beta") 3 = Ok results /\
    results
    = map (project projected)
          (rank_fusion
             [("vector_path",
               vector_search "vector_index" "embedding"
                             [1 # 2; 1 # 4]%Q 50 3);
              ("keyword_path",
               firstn (Z.to_nat 3)
                      (text_search "keyword_index" (of_string "beta") "text"))]
             [("vector_path", (6 # 10)%Q); ("keyword_path", (4 # 10)%Q)]) /\
    Z.of_nat (List.length results) <= 2 * 3 /\
    Forall (fun r => incl (keys r) ["file_name"; "text"; "score"]) results.
Proof.
  exact (@hybrid_search_result (demo [] None "") tiny_store tiny_store_laws
           (of_string "beta") 3 [1 # 2; 1 # 4]%Q
           ltac:(lia) eq_refl).
Defined.

(** C9 as stated fails.  With [limit = 1], in a store whose best vector
    match is [a.pdf] and whose best keyword match is [b.pdf], each arm
    gives one document and the result holds both. *)
Lemma hybrid_search_exceeds_limit :
  let ext := demo [] None "" in
  let store := tiny_store in
  exists results,
    hybrid_search (of_string "beta") 1 = Ok results /\
    List.length results = 2%nat /\
    map (lookup "file_name") results
    = [Some (VStr "a.pdf"); Some (VStr "b.pdf")].
Proof. eexists. split; [reflexivity|]. split; reflexivity. Qed.

End ProbeFacts.

(* ================================================================= *)
(** * Part III.  Further properties of the code *)
(* ================================================================= *)

(** ** The chunker: when the scan ends and when it does not *)

Section ChunkingMore.
Import PyStr Chunking Inputs Specs.

(** A loop whose every iteration moves [start] forward leaves within
    [len text] iterations. *)
Lemma while_loop_progress (text : str) (max_chars overlap : Z) :
  (forall start chunks,
      0 <= start < len text ->
      start + 1 <= fst (loop_body text max_chars overlap (start, chunks))) ->
  forall fuel st,
    0 <= fst st ->
    len text - fst st <= Z.of_nat fuel ->
    exists chunks, while_loop fuel text max_chars overlap st = Some chunks.
Proof.
  intros Hstep. induction fuel as [|k IH]; intros [start cs] H0 Hfuel;
    cbn [fst] in *; cbn [while_loop]; unfold loop_cond; cbn [fst snd].
  - destruct (start <? len text) eqn:E; [lia|]. eexists; reflexivity.
  - destruct (start <? len text) eqn:E; [|eexists; reflexivity].
    specialize (Hstep start cs ltac:(lia)).
    apply IH; lia.
Qed.

(** Inside the text, the right edge is never left of [start]. *)
Lemma window_end_ge_start (text : str) (max_chars start : Z) :
  0 <= max_chars -> 0 <= start < len text ->
  start <= window_end text max_chars start.
Proof.
  intros Hm Hs.
  destruct (window_end_cases text max_chars start) as [->|[_ H]]; [lia|].
  rewrite (adjust_inside (len text) start) in H by lia. lia.
Qed.

Lemma loop_body_start_guard (text : str) (max_chars overlap start : Z)
      (chunks : list str) :
  overlap <= 0 ->
  fst (loop_body text max_chars overlap (start, chunks))
  = window_end text max_chars start + 1.
Proof.
  intros Ho. unfold loop_body.
  set (e := window_end text max_chars start).
  destruct (e - overlap >=? e) eqn:E; simpl; [reflexivity|lia].
Qed.

(** When the overlap is zero or negative the guard of lines 23-24 is
    taken on every iteration and the function returns, within [len(text)]
    iterations, for every text. *)
Theorem chunk_text_returns_without_overlap (text : str)
        (max_chars overlap : Z) :
  0 <= max_chars -> overlap <= 0 ->
  exists chunks,
    chunk_text (Z.to_nat (len text)) text max_chars overlap = Some chunks.
Proof.
  intros Hm Ho. unfold chunk_text.
  destruct (len text <=? max_chars); [eexists; reflexivity|].
  apply while_loop_progress; cbn [fst]; try lia.
  intros start chunks Hs. rewrite loop_body_start_guard by exact Ho.
  pose proof (window_end_ge_start text max_chars start Hm Hs). lia.
Qed.

Lemma chunk_text_returns_without_overlap_witness :
  exists chunks,
    chunk_text (Z.to_nat (len thousand)) thousand 800 0 = Some chunks.
Proof.
  exact (chunk_text_returns_without_overlap thousand 800 0
           ltac:(lia) ltac:(lia)).
Defined.

(** A text without SPACE is cut at [start + max_chars] every time. *)
Lemma window_end_hard_cut (text : str) (max_chars start : Z) :
  (forall c, In c text -> c <> SPACE) ->
  window_end text max_chars start = start + max_chars.
Proof.
  intros Hno. unfold window_end.
  destruct (start + max_chars <? len text); [|reflexivity].
  unfold rfind.
  match goal with
  | |- context [rfind_down ?c ?s ?lo ?n] =>
      assert (rfind_down c s lo n = -1) as ->
  end; [|reflexivity].
  apply rfind_down_none. intros j _ Hj.
  apply nth_error_In in Hj. exact (Hno _ Hj eq_refl).
Qed.

(** On a text that holds no SPACE the function returns for every
    configuration with [0 <= overlap < max_chars]. *)
Theorem chunk_text_returns_without_spaces (text : str)
        (max_chars overlap : Z) :
  (forall c, In c text -> c <> SPACE) ->
  0 <= overlap < max_chars ->
  exists chunks,
    chunk_text (Z.to_nat (len text)) text max_chars overlap = Some chunks.
Proof.
  intros Hno Ho. unfold chunk_text.
  destruct (len text <=? max_chars); [eexists; reflexivity|].
  apply while_loop_progress; cbn [fst]; try lia.
  intros start chunks Hs. unfold loop_body.
  rewrite (window_end_hard_cut text max_chars start Hno).
  destruct (start + max_chars - overlap >=? start + max_chars) eqn:E;
    cbn [fst]; lia.
Qed.

Lemma chunk_text_returns_without_spaces_witness :
  exists chunks,
    chunk_text (Z.to_nat (len (repeat_char 97%N 2000)))
               (repeat_char 97%N 2000) 800 150 = Some chunks.
Proof.
  apply (chunk_text_returns_without_spaces (repeat_char 97%N 2000) 800 150).
  - intros c Hc. apply repeat_spec in Hc. subst c. discriminate.
  - lia.
Defined.

(** With [overlap >= max_chars] and [overlap > 0] the function returns for
    no text longer than [max_chars]. *)
Theorem chunk_text_never_returns_degenerate (text : str)
        (max_chars overlap : Z) (fuel : nat) :
  0 < overlap -> max_chars <= overlap ->
  max_chars < len text -> 0 < len text ->
  chunk_text fuel text max_chars overlap = None.
Proof. apply chunk_text_no_exit. Qed.

Lemma chunk_text_never_returns_degenerate_witness :
  chunk_text 1000 thousand 800 800 = None.
Proof.
  apply (chunk_text_never_returns_degenerate thousand 800 800 1000);
    try lia; vm_compute; reflexivity.
Defined.

(** The loop does not return either when the last SPACE of the first
    window sits exactly at index [overlap]: the second window starts at 0
    again.  This can happen with [overlap < max_chars]. *)
Theorem chunk_text_stalls_at_overlap (text : str) (max_chars overlap : Z)
        (fuel : nat) :
  0 < overlap -> max_chars < len text ->
  rfind SPACE text 0 max_chars = overlap ->
  chunk_text fuel text max_chars overlap = None.
Proof.
  intros Ho Hlen Hfind. unfold chunk_text.
  destruct (len text <=? max_chars) eqn:E; [lia|].
  assert (Hend : window_end text max_chars 0 = overlap).
  { unfold window_end. cbn [Z.add].
    destruct (max_chars <? len text) eqn:F; [|lia].
    rewrite Hfind. destruct (overlap =? -1) eqn:G; [lia|reflexivity]. }
  assert (Hpos : 0 < len text).
  { unfold rfind in Hfind.
    pose proof (adjust_range (len text) 0 (len_nonneg text)).
    pose proof (adjust_range (len text) max_chars (len_nonneg text)).
    destruct (rfind_down_range SPACE text
                (Z.to_nat (adjust (len text) 0))
                (Z.to_nat (adjust (len text) max_chars)
                 - Z.to_nat (adjust (len text) 0))); lia. }
  generalize (@nil str).
  induction fuel as [|k IH]; intros chunks; cbn [while_loop];
    unfold loop_cond; cbn [fst];
    (destruct (0 <? len text) eqn:F; [|lia]); [reflexivity|].
  pose proof (loop_body_start text max_chars overlap 0 chunks Ho) as H.
  rewrite Hend in H.
  destruct (loop_body text max_chars overlap (0, chunks)) as [s cs].
  cbn [fst] in H. replace s with 0 by lia. apply IH.
Qed.

Lemma chunk_text_stalls_at_overlap_witness :
  chunk_text 1000 stalling 800 150 = None.
Proof.
  apply (chunk_text_stalls_at_overlap stalling 800 150 1000);
    try lia; vm_compute; reflexivity.
Defined.

End ChunkingMore.

(** ** The chunker: what a chunk is made of *)

Section ChunkPieces.
Import PyStr Chunking Inputs Specs.

Lemma piece_of_trans (a b c : str) :
  piece_of a b -> piece_of b c -> piece_of a c.
Proof.
  intros [p1 [q1 ->]] [p2 [q2 ->]].
  exists (p1 ++ p2), (q2 ++ q1). rewrite <- !app_assoc. reflexivity.
Qed.

Lemma slice_piece (s : str) (a b : Z) : piece_of s (slice s a b).
Proof.
  unfold slice.
  set (lo := Z.to_nat (adjust (len s) a)).
  set (n := (Z.to_nat (adjust (len s) b) - lo)%nat).
  exists (firstn lo s), (skipn n (skipn lo s)).
  rewrite (firstn_skipn n (skipn lo s)), (firstn_skipn lo s). reflexivity.
Qed.

Lemma strip_piece (s : str) : piece_of s (strip s).
Proof.
  unfold strip.
  destruct (lstrip_suffix s) as [p Hp].
  destruct (rstrip_prefix (lstrip s)) as [q Hq].
  exists p, q. rewrite <- Hq. exact Hp.
Qed.

Lemma strip_trimmed_piece (s t : str) :
  piece_of s t -> trimmed_piece s (strip t).
Proof.
  intros H. split; [|apply strip_idem].
  exact (piece_of_trans _ _ _ H (strip_piece t)).
Qed.

Lemma loop_body_pieces (text : str) (max_chars overlap : Z) (st : state) :
  Forall (trimmed_piece text) (snd st) ->
  Forall (trimmed_piece text) (snd (loop_body text max_chars overlap st)).
Proof.
  intros Hst. destruct st as [start chunks]. unfold loop_body.
  set (e := window_end text max_chars start).
  destruct (e - overlap >=? e); cbn [snd];
    (destruct (20 <? len (strip (slice text start e))); [|exact Hst];
     apply Forall_app; split; [exact Hst|];
     constructor; [|constructor];
     apply strip_trimmed_piece, slice_piece).
Qed.

Lemma while_loop_pieces (text : str) (max_chars overlap : Z) :
  forall fuel st chunks,
    Forall (trimmed_piece text) (snd st) ->
    while_loop fuel text max_chars overlap st = Some chunks ->
    Forall (trimmed_piece text) chunks.
Proof.
  induction fuel as [|k IH]; intros st chunks Hst; cbn [while_loop];
    destruct (loop_cond text st); try discriminate;
    try (intros [= <-]; exact Hst).
  apply IH, loop_body_pieces. exact Hst.
Qed.

(** Whatever the configuration, every chunk of a result is a run of
    consecutive characters of the text, with no white space at either
    end: the chunker neither invents nor reorders text. *)
Theorem chunk_text_chunks_are_pieces (fuel : nat) (text : str)
        (max_chars overlap : Z) (chunks : list str) :
  chunk_text fuel text max_chars overlap = Some chunks ->
  Forall (trimmed_piece text) chunks.
Proof.
  unfold chunk_text. destruct (len text <=? max_chars).
  - intros [= <-]. destruct (20 <? len (strip text)); constructor;
      [|constructor].
    apply strip_trimmed_piece. exists [], []. rewrite app_nil_r. reflexivity.
  - apply while_loop_pieces. constructor.
Qed.

Lemma chunk_text_chunks_are_pieces_witness :
  Forall (trimmed_piece
            (of_string "the quick brown fox jumps over the lazy dog and runs away"))
         [of_string "the quick brown fox jumps";
          of_string "jumps over the lazy dog and"].
Proof.
  apply (chunk_text_chunks_are_pieces 10
           (of_string "the quick brown fox jumps over the lazy dog and runs away")
           30 5).
  vm_compute. reflexivity.
Defined.

End ChunkPieces.

(** ** One document: the stored records, and what a failure leaves *)

Section DocumentFacts.
Import PyStr Store Effects Inputs Specs.
Local Open Scope string_scope.

(** Two runs in sequence. *)
Lemma bind_runs {A B} (m : M A) (f : A -> M B) (w w' w'' : world) (a : A)
      (evs evs' : list event) (r : outcome B) :
  m w = mkRun (Done a) w' evs ->
  f a w' = mkRun r w'' evs' ->
  bind m f w = mkRun r w'' (evs ++ evs').
Proof. intros Hm Hf. unfold bind. rewrite Hm. cbn. rewrite Hf. reflexivity. Qed.

Lemma bind_stops {A B} (m : M A) (f : A -> M B) (w w' : world) (e : exn)
      (evs : list event) :
  m w = mkRun (Raised e) w' evs ->
  bind m f w = mkRun (Raised e) w' evs.
Proof. intros Hm. unfold bind. rewrite Hm. reflexivity. Qed.

Lemma nth_error_skipn_cons {A} (l : list A) :
  forall i, (i < List.length l)%nat ->
            exists e, nth_error l i = Some e /\
                      skipn i l = e :: skipn (S i) l.
Proof.
  induction l as [|x l IH]; intros i Hi; simpl in Hi; [lia|].
  destruct i as [|i].
  - exists x. split; reflexivity.
  - destruct (IH i ltac:(lia)) as [e [He Hs]]. exists e.
    split; [exact He|exact Hs].
Qed.

Lemma index_found {A} (xs : list A) (i : nat) (x : A) (w : world) :
  nth_error xs i = Some x -> index xs i w = mkRun (Done x) w [].
Proof. intros E. unfold index. rewrite E. reflexivity. Qed.

(** With enough embeddings the comprehension of [_process_and_store]
    gives one record per chunk and reads the clock once per record. *)
Lemma payload_with_time_done `{External} name embeddings chunks :
  forall i w,
    (i + List.length chunks <= List.length embeddings)%nat ->
    Pipeline.payload_with_time name embeddings i chunks w
    = mkRun (Done (stamped name i (clock w)
                           (combine chunks (skipn i embeddings))))
            (mkWorld (collection w) (staging w)
                     (clock w + List.length chunks))
            [].
Proof.
  induction chunks as [|c cs IH]; intros i w Hlen.
  - cbn. rewrite Nat.add_0_r. destruct w; reflexivity.
  - cbn [List.length] in Hlen.
    destruct (nth_error_skipn_cons embeddings i ltac:(lia)) as [e [He Hs]].
    cbn [Pipeline.payload_with_time List.length].
    rewrite Hs, Nat.add_succ_r.
    eapply eq_trans.
    + eapply bind_runs; [apply (index_found _ _ _ _ He)|].
      eapply bind_runs; [reflexivity|].
      eapply bind_runs; [apply IH; lia|]. reflexivity.
    + reflexivity.
Qed.

(** With too few embeddings it raises [IndexError], and nothing else
    has happened but readings of the clock. *)
Lemma payload_with_time_short `{External} name embeddings chunks :
  forall i w,
    (i <= List.length embeddings)%nat ->
    (List.length embeddings < i + List.length chunks)%nat ->
    exists w',
      Pipeline.payload_with_time name embeddings i chunks w
      = mkRun (Raised IndexError) w' [] /\
      collection w' = collection w /\ staging w' = staging w.
Proof.
  induction chunks as [|c cs IH]; intros i w Hi0 Hlen;
    cbn [List.length] in Hlen.
  - lia.
  - cbn [Pipeline.payload_with_time].
    destruct (nth_error embeddings i) as [e|] eqn:He.
    + assert (Hi : (i < List.length embeddings)%nat)
        by (apply nth_error_Some; congruence).
      destruct (IH (S i)
                  (mkWorld (collection w) (staging w) (S (clock w)))
                  ltac:(lia) ltac:(lia)) as [w' [Hr [Hc Hs]]].
      exists w'. split; [|split; assumption].
      eapply eq_trans.
      * eapply bind_runs; [apply (index_found _ _ _ _ He)|].
        eapply bind_runs; [reflexivity|].
        eapply bind_stops. exact Hr.
      * reflexivity.
    + exists w. split; [|split; reflexivity].
      apply bind_stops. unfold index. rewrite He. reflexivity.
Qed.

(** The success path of [_process_and_store]: when the file converts,
    gives a non-empty chunk sequence and the model returns at least as many
    vectors as chunks, the run ends normally after three calls (convert,
    one batch embedding, one [insert_many]) and appends to the collection one
    record per chunk, numbered from 0 in chunk order, each with the
    original name, its chunk, the vector at its position and its own
    clock reading. *)
Theorem process_and_store_success `{External} (fuel : nat)
        (path name : string) (text : str) (chunks : list str)
        (embeddings : list vector) (w : world) :
  convert path = Ok text ->
  Chunking.chunk_text fuel text 800 100 = Some chunks ->
  chunks <> [] ->
  encode chunks = Ok embeddings ->
  (List.length chunks <= List.length embeddings)%nat ->
  let payload := stamped name 0 (clock w) (combine chunks embeddings) in
  Pipeline._process_and_store fuel path name w
  = mkRun (Done tt)
          (mkWorld (collection w ++ payload) (staging w)
                   (clock w + List.length chunks))
          [EvConvert path; EvEncode chunks; EvInsertMany payload].
Proof.
  intros E1 E2 Hne E3 Hlen. cbv zeta.
  destruct chunks as [|c cs]; [congruence|].
  assert (Hp : exists r rs,
             stamped name 0 (clock w) (combine (c :: cs) embeddings)
             = r :: rs).
  { destruct embeddings as [|e es]; [simpl in Hlen; lia|]. cbn. eauto. }
  destruct Hp as [r [rs Hp]].
  unfold Pipeline._process_and_store, Pipeline.converter_convert,
    Pipeline.embed_model_encode, chunk.
  eapply eq_trans.
  - eapply bind_runs.
    { eapply bind_runs; [reflexivity|]. rewrite E1. reflexivity. }
    eapply bind_runs; [rewrite E2; reflexivity|].
    eapply bind_runs.
    { eapply bind_runs; [reflexivity|]. rewrite E3. reflexivity. }
    eapply bind_runs.
    { apply (payload_with_time_done name embeddings (c :: cs) 0 w).
      exact Hlen. }
    cbn [skipn]. rewrite Hp. reflexivity.
  - rewrite <- Hp. reflexivity.
Qed.

Lemma process_and_store_success_witness :
  let ext := demo [] None "" in
  let chunks :=
    match Chunking.chunk_text 5 thousand 800 100 with
    | Some cs => cs
    | None => []
    end in
  let w := world_with [old_record] in
  let payload :=
    stamped "docs/a.pdf" 0 (clock w)
            (combine chunks [[1 # 2; 1 # 4]; [1 # 2; 1 # 4]]%Q) in
  Pipeline._process_and_store 5 "temp_a.pdf" "docs/a.pdf" w
  = mkRun (Done tt)
          (mkWorld (collection w ++ payload) (staging w)
                   (clock w + List.length chunks))
          [EvConvert "temp_a.pdf"; EvEncode chunks; EvInsertMany payload].
Proof.
  apply (@process_and_store_success (demo [] None "") 5 "temp_a.pdf"
           "docs/a.pdf" thousand _ _ (world_with [old_record]) eq_refl);
    vm_compute; try reflexivity; try discriminate.
Defined.

(** When the model returns fewer vectors than there are chunks,
    [_process_and_store] raises [IndexError] while it assembles the
    records (line 181): [insert_many] is not reached and the collection
    stays as it was. *)
Theorem process_and_store_too_few_embeddings `{External} (fuel : nat)
        (path name : string) (text : str) (chunks : list str)
        (embeddings : list vector) (w : world) :
  convert path = Ok text ->
  Chunking.chunk_text fuel text 800 100 = Some chunks ->
  encode chunks = Ok embeddings ->
  (List.length embeddings < List.length chunks)%nat ->
  let r := Pipeline._process_and_store fuel path name w in
  result_of r = Raised IndexError /\
  collection (final r) = collection w /\
  events r = [EvConvert path; EvEncode chunks].
Proof.
  intros E1 E2 E3 Hlen. cbv zeta.
  destruct chunks as [|c cs]; [simpl in Hlen; lia|].
  destruct (payload_with_time_short name embeddings (c :: cs) 0 w
              ltac:(lia) ltac:(simpl; simpl in Hlen; lia))
    as [w' [Hr [Hc _]]].
  assert (Hrun : Pipeline._process_and_store fuel path name w
                 = mkRun (Raised IndexError) w'
                         [EvConvert path; EvEncode (c :: cs)]).
  { unfold Pipeline._process_and_store, Pipeline.converter_convert,
      Pipeline.embed_model_encode, chunk.
    eapply eq_trans.
    - eapply bind_runs.
      { eapply bind_runs; [reflexivity|]. rewrite E1. reflexivity. }
      eapply bind_runs; [rewrite E2; reflexivity|].
      eapply bind_runs.
      { eapply bind_runs; [reflexivity|]. rewrite E3. reflexivity. }
      eapply bind_stops. exact Hr.
    - reflexivity. }
  rewrite Hrun. repeat split. exact Hc.
Qed.

Lemma process_and_store_too_few_embeddings_witness :
  let ext :=
    {| glob_pdf := []; s3_configured := true;
       list_objects_v2 := Ok None;
       download_fileobj := fun _ => Ok tt;
       convert := fun _ => Ok thousand;
       encode := fun _ => Ok [[1 # 2]%Q];
       encode_str := fun _ => Ok [1 # 2]%Q |} in
  let chunks :=
    match Chunking.chunk_text 5 thousand 800 100 with
    | Some cs => cs
    | None => []
    end in
  let r := Pipeline._process_and_store 5 "temp_a.pdf" "a.pdf"
                                       (world_with [old_record]) in
  result_of r = Raised IndexError /\
  collection (final r) = [old_record] /\
  events r = [EvConvert "temp_a.pdf"; EvEncode chunks].
Proof.
  apply (@process_and_store_too_few_embeddings
           {| glob_pdf := []; s3_configured := true;
              list_objects_v2 := Ok None;
              download_fileobj := fun _ => Ok tt;
              convert := fun _ => Ok thousand;
              encode := fun _ => Ok [[1 # 2]%Q];
              encode_str := fun _ => Ok [1 # 2]%Q |}
           5 "temp_a.pdf" "a.pdf" thousand _ [[1 # 2]%Q]
           (world_with [old_record]) eq_refl);
    vm_compute; try reflexivity; lia.
Defined.

(** *** All or nothing *)

Lemma all_or_nothing_bind {A} (m : M A) (f : A -> M unit) :
  keeps_collection m -> (forall a, all_or_nothing (f a)) ->
  all_or_nothing (bind m f).
Proof.
  intros Hm Hf w. unfold bind.
  destruct (result_of (m w)) as [a| |] eqn:E; cbn [result_of final].
  - intros Hr. rewrite (Hf a _ Hr). apply Hm.
  - intros _. apply Hm.
  - intros _. apply Hm.
Qed.

Lemma all_or_nothing_ret : all_or_nothing (ret tt).
Proof. intros w _. reflexivity. Qed.

Lemma all_or_nothing_insert_many (payload : list record) :
  all_or_nothing (insert_many payload).
Proof.
  intros w. destruct payload as [|r rs]; cbn; [reflexivity|congruence].
Qed.

Lemma keeps_bind {A B} (m : M A) (f : A -> M B) :
  keeps_collection m -> (forall a, keeps_collection (f a)) ->
  keeps_collection (bind m f).
Proof.
  intros Hm Hf w. unfold bind.
  destruct (result_of (m w)) as [a| |]; cbn [final]; try apply Hm.
  rewrite Hf. apply Hm.
Qed.

Lemma keeps_ret {A} (a : A) : keeps_collection (ret a).
Proof. intros w. reflexivity. Qed.

Lemma keeps_emit_result {A} (ev : event) (r : result A) :
  keeps_collection (bind (emit ev) (fun _ => of_result r)).
Proof. intros w. destruct r; reflexivity. Qed.

Lemma keeps_chunk (fuel : nat) (text : str) (m o : Z) :
  keeps_collection (chunk fuel text m o).
Proof.
  intros w. unfold chunk.
  destruct (Chunking.chunk_text fuel text m o); reflexivity.
Qed.

Lemma keeps_index {A} (xs : list A) (i : nat) : keeps_collection (index xs i).
Proof. intros w. unfold index. destruct (nth_error xs i); reflexivity. Qed.

Lemma keeps_time : keeps_collection time_time.
Proof. intros w. reflexivity. Qed.

Lemma keeps_payload_with_time `{External} name embeddings chunks :
  forall i,
    keeps_collection (Pipeline.payload_with_time name embeddings i chunks).
Proof.
  induction chunks as [|c cs IH]; intros i; cbn [Pipeline.payload_with_time];
    [apply keeps_ret|].
  apply keeps_bind; [apply keeps_index|]. intros e.
  apply keeps_bind; [apply keeps_time|]. intros t.
  apply keeps_bind; [apply IH|]. intros rs. apply keeps_ret.
Qed.

Lemma keeps_payload_plain `{External} name embeddings chunks :
  forall i,
    keeps_collection (Pipeline.payload_plain name embeddings i chunks).
Proof.
  induction chunks as [|c cs IH]; intros i; cbn [Pipeline.payload_plain];
    [apply keeps_ret|].
  apply keeps_bind; [apply keeps_index|]. intros e.
  apply keeps_bind; [apply IH|]. intros rs. apply keeps_ret.
Qed.

Lemma keeps_payload_loop `{External} name chunks :
  forall i, keeps_collection (Legacy.payload_loop name i chunks).
Proof.
  induction chunks as [|c cs IH]; intros i; cbn [Legacy.payload_loop];
    [apply keeps_ret|].
  apply keeps_bind; [apply keeps_emit_result|]. intros e.
  apply keeps_bind; [apply IH|]. intros rs. apply keeps_ret.
Qed.

(** The records of a document are written by one [insert_many], the last
    step of its processing.  So when the processing of a document does not
    end normally (the conversion or the embedding raises, a vector is
    missing, the chunker does not return) nothing of that document is in
    the collection.  This holds of the three per-document bodies. *)
Theorem document_all_or_nothing `{External} (fuel : nat)
        (path name : string) :
  all_or_nothing (Pipeline._process_and_store fuel path name) /\
  all_or_nothing (Pipeline.local_pdf fuel name) /\
  all_or_nothing (Legacy.local_pdf fuel name).
Proof.
  split; [|split].
  - unfold Pipeline._process_and_store.
    apply all_or_nothing_bind; [apply keeps_emit_result|]. intros text.
    apply all_or_nothing_bind; [apply keeps_chunk|]. intros [|c cs];
      [apply all_or_nothing_ret|].
    apply all_or_nothing_bind; [apply keeps_emit_result|]. intros embs.
    apply all_or_nothing_bind; [apply keeps_payload_with_time|].
    intros payload. apply all_or_nothing_insert_many.
  - unfold Pipeline.local_pdf.
    apply all_or_nothing_bind; [apply keeps_emit_result|]. intros text.
    apply all_or_nothing_bind; [apply keeps_chunk|]. intros [|c cs];
      [apply all_or_nothing_ret|].
    apply all_or_nothing_bind; [apply keeps_emit_result|]. intros embs.
    apply all_or_nothing_bind; [apply keeps_payload_plain|].
    intros payload. apply all_or_nothing_insert_many.
  - unfold Legacy.local_pdf.
    apply all_or_nothing_bind; [apply keeps_emit_result|]. intros text.
    apply all_or_nothing_bind; [apply keeps_chunk|]. intros chunks.
    apply all_or_nothing_bind; [apply keeps_payload_loop|].
    intros [|r rs]; [apply all_or_nothing_ret|].
    apply all_or_nothing_insert_many.
Qed.

End DocumentFacts.

(** ** The S3 run: which calls it makes, what it leaves *)

Section S3Facts.
Import PyStr Store Effects Inputs Specs.
Local Open Scope string_scope.

Lemma all_events_bind {A B} (Q : event -> Prop) (m : M A) (f : A -> M B) :
  all_events Q m -> (forall a, all_events Q (f a)) ->
  all_events Q (bind m f).
Proof.
  intros Hm Hf w. unfold bind.
  destruct (result_of (m w)) as [a| |]; cbn [events]; try apply Hm.
  apply Forall_app. split; [apply Hm|apply Hf].
Qed.

Lemma all_events_bind_ret {A B} (Q : event -> Prop) (a : A)
      (f : A -> M B) :
  all_events Q (f a) -> all_events Q (bind (ret a) f).
Proof. intros H w. unfold bind. cbn. apply H. Qed.

Lemma all_events_silent {A} (Q : event -> Prop) (m : M A) :
  (forall w, events (m w) = []) -> all_events Q m.
Proof. intros H w. rewrite H. constructor. Qed.

Lemma all_events_emit (Q : event -> Prop) (ev : event) :
  Q ev -> all_events Q (emit ev).
Proof. intros H w. cbn. constructor; [exact H|constructor]. Qed.

Lemma all_events_of_result {A} (Q : event -> Prop) (r : result A) :
  all_events Q (of_result r).
Proof. apply all_events_silent. intros w. destruct r; reflexivity. Qed.

Lemma all_events_insert_many (Q : event -> Prop) (payload : list record) :
  Q (EvInsertMany payload) -> all_events Q (insert_many payload).
Proof.
  intros H w. destruct payload as [|r rs]; cbn; [constructor|].
  constructor; [exact H|constructor].
Qed.

Lemma all_events_for_each {A} (Q : event -> Prop) (f : A -> M unit)
      (l : list A) :
  (forall x, In x l -> all_events Q (f x)) -> all_events Q (for_each f l).
Proof.
  induction l as [|x l IH]; intros H; cbn [for_each].
  - apply all_events_silent. reflexivity.
  - apply all_events_bind; [apply H; left; reflexivity|].
    intros _. apply IH. intros y Hy. apply H. right. exact Hy.
Qed.

Lemma payload_with_time_silent `{External} name embeddings chunks :
  forall i w,
    events (Pipeline.payload_with_time name embeddings i chunks w) = [].
Proof.
  induction chunks as [|c cs IH]; intros i w;
    cbn [Pipeline.payload_with_time]; [reflexivity|].
  unfold bind at 1, index.
  destruct (nth_error embeddings i); cbn [ret raise result_of final events];
    [|reflexivity].
  unfold bind at 1. cbn [time_time result_of final events].
  unfold bind at 1.
  destruct (result_of _) eqn:E; cbn [ret events]; rewrite IH; reflexivity.
Qed.

(** The calls of a run of [ingest_from_s3]: every download is of a key of
    the listing that ends in [.pdf] (letter case ignored), every
    conversion is of the temporary file named after such a key, and the
    model is never given a single string. *)
Theorem ingest_from_s3_calls `{External} (fuel : nat) :
  all_events s3_event (Pipeline.ingest_from_s3 fuel).
Proof.
  unfold Pipeline.ingest_from_s3.
  destruct s3_configured; cbn [negb];
    [|apply all_events_silent; reflexivity].
  destruct list_objects_v2 as [[contents|]|e] eqn:Hlist;
    try (apply all_events_silent; reflexivity).
  cbn [of_result]. apply all_events_bind_ret.
  apply all_events_bind.
  { intros w. cbn. constructor; [exact I|constructor]. }
  intros _. apply all_events_for_each. intros key Hkey.
  unfold Pipeline.s3_object.
  destruct (Pipeline.is_pdf_key key) eqn:Hpdf; cbn [negb];
    [|apply all_events_silent; reflexivity].
  assert (Hk : listed_pdf key).
  { split; [exact Hpdf|]. exists contents. split; [exact Hlist|exact Hkey]. }
  apply all_events_bind.
  { unfold Pipeline.s3_download.
    apply all_events_bind; [apply all_events_emit; exact Hk|].
    intros _. apply all_events_of_result. }
  intros _. unfold Pipeline._process_and_store.
  apply all_events_bind.
  { unfold Pipeline.converter_convert.
    apply all_events_bind; [|intros _; apply all_events_of_result].
    apply all_events_emit. exists key. split; [exact Hk|reflexivity]. }
  intros text.
  apply all_events_bind.
  { apply all_events_silent. intros w. unfold chunk.
    destruct (Chunking.chunk_text fuel text 800 100); reflexivity. }
  intros [|c cs]; [apply all_events_silent; reflexivity|].
  apply all_events_bind.
  { unfold Pipeline.embed_model_encode.
    apply all_events_bind; [|intros _; apply all_events_of_result].
    apply all_events_emit. exact I. }
  intros embeddings.
  apply all_events_bind.
  { apply all_events_silent. intros w. apply payload_with_time_silent. }
  intros payload. apply all_events_insert_many. exact I.
Qed.

(** When S3 is configured and the response lists keys, the run leaves in
    the collection exactly the records it has inserted itself, whatever
    was there before and however the run ends. *)
Theorem ingest_from_s3_replaces `{External} (fuel : nat) (w : world)
        (contents : list string) :
  s3_configured = true ->
  list_objects_v2 = Ok (Some contents) ->
  collection (final (Pipeline.ingest_from_s3 fuel w))
  = inserted (events (Pipeline.ingest_from_s3 fuel w)).
Proof.
  intros Hcfg Hlist.
  rewrite (ingest_from_s3_listed fuel w contents Hcfg Hlist).
  apply delete_then_appends, appends_for_each.
  intros key. apply s3_object_appends.
Qed.

Lemma ingest_from_s3_replaces_witness :
  let ext := demo [] (Some ["docs/a.pdf"; "readme.txt"]) "" in
  collection (final (Pipeline.ingest_from_s3 5 (world_with [old_record])))
  = inserted (events (Pipeline.ingest_from_s3 5 (world_with [old_record]))).
Proof.
  exact (@ingest_from_s3_replaces
           (demo [] (Some ["docs/a.pdf"; "readme.txt"]) "")
           5 (world_with [old_record]) ["docs/a.pdf"; "readme.txt"]
           eq_refl eq_refl).
Defined.

End S3Facts.

(** ** Stage 3: run_ingestion *)

Section StagedFacts.
Import PyStr Store Effects Inputs Specs.
Local Open Scope string_scope.

Lemma untimed_stamped (name : string) (pairs : list (str * vector)) :
  forall i t, map untimed (stamped name i t pairs) = plain name i pairs.
Proof.
  induction pairs as [|[text e] rest IH]; intros i t; [reflexivity|].
  cbn [stamped plain map]. rewrite IH. reflexivity.
Qed.

Lemma payload_of_done (data : enriched) (chunks : list str) :
  forall i w,
    (i + List.length chunks <= List.length (ef_embeddings data))%nat ->
    Staged.payload_of data i chunks w
    = mkRun (Done (stamped (ef_file_name data) i (clock w)
                           (combine chunks (skipn i (ef_embeddings data)))))
            (mkWorld (collection w) (staging w)
                     (clock w + List.length chunks))
            [].
Proof.
  induction chunks as [|c cs IH]; intros i w Hlen.
  - cbn. rewrite Nat.add_0_r. destruct w; reflexivity.
  - cbn [List.length] in Hlen.
    destruct (nth_error_skipn_cons (ef_embeddings data) i ltac:(lia))
      as [e [He Hs]].
    cbn [Staged.payload_of List.length].
    rewrite Hs, Nat.add_succ_r.
    eapply eq_trans.
    + eapply bind_runs; [apply (index_found _ _ _ _ He)|].
      eapply bind_runs; [reflexivity|].
      eapply bind_runs; [apply IH; lia|]. reflexivity.
    + reflexivity.
Qed.

Lemma payload_of_short (data : enriched) (chunks : list str) :
  forall i w,
    (i <= List.length (ef_embeddings data))%nat ->
    (List.length (ef_embeddings data) < i + List.length chunks)%nat ->
    exists w',
      Staged.payload_of data i chunks w = mkRun (Raised IndexError) w' [] /\
      collection w' = collection w /\ staging w' = staging w.
Proof.
  induction chunks as [|c cs IH]; intros i w Hi0 Hlen;
    cbn [List.length] in Hlen.
  - lia.
  - cbn [Staged.payload_of].
    destruct (nth_error (ef_embeddings data) i) as [e|] eqn:He.
    + assert (Hi : (i < List.length (ef_embeddings data))%nat)
        by (apply nth_error_Some; congruence).
      destruct (IH (S i)
                  (mkWorld (collection w) (staging w) (S (clock w)))
                  ltac:(lia) ltac:(lia)) as [w' [Hr [Hc Hs]]].
      exists w'. split; [|split; assumption].
      eapply eq_trans.
      * eapply bind_runs; [apply (index_found _ _ _ _ He)|].
        eapply bind_runs; [reflexivity|].
        eapply bind_stops. exact Hr.
      * reflexivity.
    + exists w. split; [|split; reflexivity].
      apply bind_stops. unfold index. rewrite He. reflexivity.
Qed.

(** One well-formed file: its records are appended and the file is
    removed from the staging directory. *)
Lemma enriched_file_done (data : enriched) (w : world) :
  well_formed data ->
  exists w' evs,
    Staged.enriched_file data w = mkRun (Done tt) w' evs /\
    staging w' = tl (staging w) /\
    map untimed (collection w')
    = (map untimed (collection w) ++ plain_of data)%list.
Proof.
  intros Hwf. unfold well_formed in Hwf. unfold Staged.enriched_file.
  pose proof (payload_of_done data (ef_chunks data) 0 w Hwf) as Hp.
  cbn [skipn] in Hp.
  pose proof (untimed_stamped (ef_file_name data)
                (combine (ef_chunks data) (ef_embeddings data))
                0 (clock w)) as HP.
  fold (plain_of data) in HP.
  destruct (stamped (ef_file_name data) 0 (clock w)
                    (combine (ef_chunks data) (ef_embeddings data)))
    as [|r rs].
  - eexists. eexists. split; [|split].
    + eapply bind_runs; [exact Hp|].
      eapply bind_runs; reflexivity.
    + reflexivity.
    + cbn [collection]. rewrite <- HP. cbn. rewrite app_nil_r. reflexivity.
  - eexists. eexists. split; [|split].
    + eapply bind_runs; [exact Hp|].
      eapply bind_runs; reflexivity.
    + reflexivity.
    + cbn [collection]. rewrite map_app, HP. reflexivity.
Qed.

Lemma for_each_enriched_done (files : list enriched) :
  forall (rest : list enriched) (w : world),
    Forall well_formed files ->
    staging w = (files ++ rest)%list ->
    let r := for_each Staged.enriched_file files w in
    result_of r = Done tt /\
    staging (final r) = rest /\
    map untimed (collection (final r))
    = (map untimed (collection w) ++ flat_map plain_of files)%list.
Proof.
  induction files as [|data files IH]; intros rest w Hwf Hst; cbv zeta.
  - cbn. rewrite app_nil_r. repeat split. exact Hst.
  - inversion Hwf as [|? ? Hd Hfs]; subst.
    destruct (enriched_file_done data w Hd) as [w' [evs [Hrun [Hs Hc]]]].
    cbn [for_each]. unfold bind. rewrite Hrun.
    cbn [result_of final events].
    rewrite Hst in Hs. cbn [tl app] in Hs.
    destruct (IH rest w' Hfs Hs) as [Hr' [Hs' Hc']].
    split; [exact Hr'|]. split; [exact Hs'|].
    rewrite Hc', Hc. cbn [flat_map]. rewrite <- app_assoc. reflexivity.
Qed.

(** When every staged file holds a vector for each of its chunks,
    [run_ingestion] ends normally, leaves the staging directory empty, and
    the collection holds, file after file, one record per chunk with the
    file's name, the chunk's position, the chunk and its vector (and
    [ingested_at]); nothing of what the collection held before remains. *)
Theorem run_ingestion_success (w : world) :
  Forall well_formed (staging w) ->
  let r := Staged.run_ingestion w in
  result_of r = Done tt /\
  staging (final r) = [] /\
  map untimed (collection (final r)) = flat_map plain_of (staging w).
Proof.
  intros Hwf. cbv zeta. unfold Staged.run_ingestion.
  rewrite delete_then.
  destruct (for_each_enriched_done (staging w) [] (cleared w) Hwf)
    as [Hr [Hs Hc]].
  { cbn. rewrite app_nil_r. reflexivity. }
  cbn [result_of final]. cbn [cleared staging] in *.
  split; [exact Hr|]. split; [exact Hs|exact Hc].
Qed.

Lemma run_ingestion_success_witness :
  let file := mkEnriched "a.pdf" [of_string "first"; of_string "second"]
                         [[1 # 2]; [1 # 3]; [1 # 4]]%Q in
  let r := Staged.run_ingestion (mkWorld [old_record] [file] 7) in
  result_of r = Done tt /\
  staging (final r) = [] /\
  map untimed (collection (final r)) = flat_map plain_of [file].
Proof.
  apply (run_ingestion_success
           (mkWorld [old_record]
                    [mkEnriched "a.pdf" [of_string "first"; of_string "second"]
                                [[1 # 2]; [1 # 3]; [1 # 4]]%Q] 7)).
  constructor; [|constructor]. unfold well_formed. simpl. lia.
Defined.

(** A staged file with fewer vectors than chunks makes [run_ingestion]
    raise [IndexError].  The delete has already happened: the collection
    then holds only the records of the well-formed files before it, and
    the file and those after it stay in the staging directory. *)
Theorem run_ingestion_bad_file (w : world) (good rest : list enriched)
        (bad : enriched) :
  staging w = (good ++ bad :: rest)%list ->
  Forall well_formed good ->
  (List.length (ef_embeddings bad) < List.length (ef_chunks bad))%nat ->
  let r := Staged.run_ingestion w in
  result_of r = Raised IndexError /\
  staging (final r) = bad :: rest /\
  map untimed (collection (final r)) = flat_map plain_of good.
Proof.
  intros Hst Hwf Hbad. cbv zeta. unfold Staged.run_ingestion.
  rewrite delete_then.
  change (staging (cleared w)) with (staging w). rewrite Hst.
  destruct (for_each_enriched_done good (bad :: rest) (cleared w) Hwf)
    as [Hr [Hs Hc]].
  { cbn. exact Hst. }
  cbn [cleared collection map app] in Hc.
  destruct (payload_of_short bad (ef_chunks bad) 0
              (final (for_each Staged.enriched_file good (cleared w)))
              ltac:(lia) ltac:(lia)) as [w' [Hp [Hc' Hs']]].
  assert (Hbadrun :
            Staged.enriched_file bad
              (final (for_each Staged.enriched_file good (cleared w)))
            = mkRun (Raised IndexError) w' []).
  { unfold Staged.enriched_file. apply bind_stops. exact Hp. }
  rewrite (for_each_raises Staged.enriched_file good rest bad IndexError
             (cleared w) Hr).
  - rewrite Hbadrun. cbn [result_of final events].
    split; [reflexivity|]. split; [congruence|]. rewrite Hc'. exact Hc.
  - rewrite Hbadrun. reflexivity.
Qed.

Lemma run_ingestion_bad_file_witness :
  let bad := mkEnriched "a.pdf" [of_string "first"; of_string "second"]
                        [[1 # 2]%Q] in
  let r := Staged.run_ingestion (mkWorld [old_record] [bad] 0) in
  result_of r = Raised IndexError /\
  staging (final r) = [bad] /\
  map untimed (collection (final r)) = [].
Proof.
  apply (run_ingestion_bad_file
           (mkWorld [old_record]
                    [mkEnriched "a.pdf" [of_string "first"; of_string "second"]
                                [[1 # 2]%Q]] 0)
           [] []
           (mkEnriched "a.pdf" [of_string "first"; of_string "second"]
                       [[1 # 2]%Q])
           eq_refl (Forall_nil _)).
  simpl. lia.
Defined.

End StagedFacts.
